(** * js-immutable: selector-driven immutable updates

    A shallow embedding of [src/index.js].  JavaScript values live in an
    explicit store so that reference identity ([===] on objects) and
    in-place assignment ([clonedObject[key] = ...]) are visible in the
    model: an object value is an address, two object values are identical
    exactly when their addresses are equal, and every function of the
    source that allocates or assigns is a computation over the store.

    Scope of the model.  Objects are described by their own enumerable
    string-keyed properties (what [Object.keys] and [Object.assign] see),
    and a read of a key of a clone also finds the members that every plain
    object inherits from [Object.prototype].  Replacing or reading the
    prototype itself is outside the model: a selector key [__proto__] makes
    the computation [Stuck], and so does the clone of a node that has an
    own property of that name; the statements on what a traversal or
    [merge] returns assume a store without such a property
    ([no_proto_key]).  Property attributes, array holes and
    symbols are not modelled.  Numbers are the integer-valued ones and
    strings are sequences of one-byte characters.  A function is an opaque
    identifier; what it does when called (return a value or raise, and what
    it does to the store) is given by a table, which the statements quantify
    over.  A selector is an immutable tree, as the source only reads it. *)

From Stdlib Require Import ZArith Ascii DecimalString DecimalNat.
From stdpp Require Import base option list strings gmap.

Set Warnings "-register-all".

(** ** Values and store *)

Abbreviation loc := nat.
Abbreviation fid := nat.

Inductive val :=
| VUndef
| VNull
| VBool (b : bool)
| VNum (n : Z)
| VStr (s : string)
| VFun (f : fid)
| VRef (l : loc).

Inductive obj :=
| OObj (props : list (string * val))
| OArr (elems : list val).

Abbreviation heap := (list obj).

#[global] Instance val_eq_dec : EqDecision val.
Proof. solve_decision. Defined.

#[global] Instance obj_eq_dec : EqDecision obj.
Proof. solve_decision. Defined.

(** ** Computations: store passing with exceptions *)

Inductive error :=
| OperationRequired   (* 'Should at least has a one operation intended ...' *)
| InvalidSelector     (* 'Invalid selector' / 'Invalid selector. No keys to traverse.' *)
| TypeError           (* a method called on a value that does not have it *)
| CallbackError       (* raised by a user function given to pipe *)
| RangeError.         (* 'Maximum call stack size exceeded' *)

(** [Stuck]: the code goes on, in a way that the model does not follow. *)
Inductive outcome (A : Type) :=
| Ret (a : A)
| Throw (e : error)
| Stuck.
Arguments Ret {A} a.
Arguments Throw {A} e.
Arguments Stuck {A}.

Definition M (A : Type) : Type := heap → outcome A * heap.

Definition ret {A} (a : A) : M A := λ h, (Ret a, h).
Definition throw {A} (e : error) : M A := λ h, (Throw e, h).
Definition bind {A B} (m : M A) (k : A → M B) : M B :=
  λ h, match m h with
       | (Ret a, h') => k a h'
       | (Throw e, h') => (Throw e, h')
       | (Stuck, h') => (Stuck, h')
       end.

Notation "'let!' x ':=' m 'in' k" := (bind m (λ x, k))
  (at level 10, x name, m at level 100, k at level 200).

Definition read {A} (f : heap → A) : M A := λ h, (Ret (f h), h).

(** [new o] allocates at the first unused address. *)
Definition new (o : obj) : M val := λ h, (Ret (VRef (List.length h)), h ++ [o]).

(** ** JavaScript primitives used by the source *)

Inductive jstype :=
| TyUndefined | TyObject | TyBoolean | TyNumber | TyString | TyFunction.

Definition typeof (v : val) : jstype :=
  match v with
  | VUndef => TyUndefined
  | VNull => TyObject
  | VBool _ => TyBoolean
  | VNum _ => TyNumber
  | VStr _ => TyString
  | VFun _ => TyFunction
  | VRef _ => TyObject
  end.

#[global] Instance jstype_eq_dec : EqDecision jstype.
Proof. solve_decision. Defined.

(** [s.startsWith(p)] *)
Fixpoint startsWith (s p : string) {struct p} : bool :=
  match p with
  | EmptyString => true
  | String a p' =>
      match s with
      | EmptyString => false
      | String b s' => Ascii.eqb a b && startsWith s' p'
      end
  end.

(** [v === null || v === undefined] *)
Definition nullish (v : val) : bool :=
  match v with VUndef | VNull => true | _ => false end.

(** [!v] is false *)
Definition truthy (v : val) : bool :=
  match v with
  | VUndef | VNull => false
  | VBool b => b
  | VNum n => negb (n =? 0)%Z
  | VStr s => negb (String.eqb s "")
  | VFun _ | VRef _ => true
  end.

Definition isArray (h : heap) (v : val) : bool :=
  match v with
  | VRef l => match h !! l with Some (OArr _) => true | _ => false end
  | _ => false
  end.

(** Decimal property key of an array position. *)
Definition index_key (i : nat) : string := NilEmpty.string_of_uint (Nat.to_uint i).

Definition digit_of (a : Ascii.ascii) : option N :=
  let n := Ascii.N_of_ascii a in
  if ((48 <=? n) && (n <=? 57))%N then Some (n - 48)%N else None.

Fixpoint parse_digits (acc : N) (s : string) : option N :=
  match s with
  | EmptyString => Some acc
  | String a s' =>
      match digit_of a with
      | Some d => parse_digits (acc * 10 + d)%N s'
      | None => None
      end
  end.

(** A key is an array index when it is the canonical decimal form of an
    integer below 2^32 - 1; such keys are enumerated first, in ascending
    order, before all other keys (in insertion order). *)
Definition array_index (k : string) : option N :=
  match k with
  | EmptyString => None
  | String "0"%char EmptyString => Some 0%N
  | String "0"%char _ => None
  | _ => match parse_digits 0 k with
         | Some n => if (n <? 4294967295)%N then Some n else None
         | None => None
         end
  end.

Abbreviation props := (list (string * val)).

Fixpoint assoc (k : string) (ps : props) : option val :=
  match ps with
  | [] => None
  | (k', v) :: ps' => if decide (k = k') then Some v else assoc k ps'
  end.

(** [o[k]] for a key [k] among the own keys of [o]. *)
Definition get (ps : props) (k : string) : val := default VUndef (assoc k ps).

Fixpoint replace_prop (k : string) (v : val) (ps : props) : props :=
  match ps with
  | [] => []
  | (k', v') :: ps' =>
      if decide (k = k') then (k, v) :: ps' else (k', v') :: replace_prop k v ps'
  end.

Fixpoint insert_index (n : N) (k : string) (v : val) (ps : props) : props :=
  match ps with
  | [] => [(k, v)]
  | (k', v') :: ps' =>
      match array_index k' with
      | Some m => if (m <? n)%N then (k', v') :: insert_index n k v ps'
                  else (k, v) :: ps
      | None => (k, v) :: ps
      end
  end.

(** [o[k] = v] on a plain object: an existing property keeps its place, a
    new one is created at its place in the enumeration order. *)
Definition define_prop (k : string) (v : val) (ps : props) : props :=
  match assoc k ps with
  | Some _ => replace_prop k v ps
  | None =>
      match array_index k with
      | Some n => insert_index n k v ps
      | None => ps ++ [(k, v)]
      end
  end.

Definition indexed (es : list val) : props := imap (λ i e, (index_key i, e)) es.

Definition chars (s : string) : list val :=
  (λ a, VStr (String a EmptyString)) <$> String.list_ascii_of_string s.

(** Own enumerable string-keyed properties, in [Object.keys] order. *)
Definition own_props (h : heap) (v : val) : props :=
  match v with
  | VRef l =>
      match h !! l with
      | Some (OObj ps) => ps
      | Some (OArr es) => indexed es
      | None => []
      end
  | VStr s => indexed (chars s)
  | _ => []
  end.

(** One source of [Object.assign(target, source)], for a source without
    an own property [__proto__]: every key of the source becomes a key of
    the target.  ([Object.assign] assigns, so a property [__proto__] of the
    source goes to the setter of the prototype; see [clone] and
    [no_proto_key].) *)
Definition assign_props (target source : props) : props :=
  fold_left (λ acc kv, define_prop kv.1 kv.2 acc) source target.

(** [Object.assign({}, s1, ..., sn)] *)
Definition Object_assign_new (sources : list val) : M val :=
  λ h, new (OObj (fold_left (λ acc s, assign_props acc (own_props h s)) sources [])) h.

(** [Object.assign({}, originalObject)], the clone that [selectTransform]
    makes of a node.  For a node with an own property [__proto__] (such as
    [JSON.parse] can make) the clone does not get that property, and may
    get another prototype: the model does not follow the code there. *)
Definition clone (originalObject : val) : M val :=
  λ h, match assoc "__proto__" (own_props h originalObject) with
       | Some _ => (Stuck, h)
       | None => Object_assign_new [originalObject] h
       end.

(** The function members of [Object.prototype] (those of the standard and
    of its annex B), with the identifiers that stand for them: a read that
    finds one of them gives a function, which the traversal handles like
    any other value that is neither null nor undefined.  The accessor
    [__proto__] is not among them. *)
Definition Object_prototype : list (string * fid) :=
  [ ("constructor", 1); ("__defineGetter__", 2); ("__defineSetter__", 3);
    ("hasOwnProperty", 4); ("__lookupGetter__", 5); ("__lookupSetter__", 6);
    ("isPrototypeOf", 7); ("propertyIsEnumerable", 8); ("toString", 9);
    ("valueOf", 10); ("toLocaleString", 11) ].

Fixpoint member (k : string) (ms : list (string * fid)) : option fid :=
  match ms with
  | [] => None
  | (k', f) :: ms' => if decide (k = k') then Some f else member k ms'
  end.

(** What a plain object with the properties [ps] gives for [o[k]], for a
    key other than [__proto__]: the own property, or else the member
    inherited from [Object.prototype], or else [undefined]. *)
Definition reads (ps : props) (k : string) : val :=
  match assoc k ps with
  | Some v => v
  | None =>
      match member k Object_prototype with
      | Some f => VFun f
      | None => VUndef
      end
  end.

(** [VRef l [key] = v] where [l] holds a plain object: the property is
    defined on the object itself, also when a member of that name was
    inherited.  For [__proto__] the assignment is a call of the setter of
    the prototype. *)
Definition put (l : loc) (key : string) (v : val) : M unit :=
  λ h, match h !! l with
       | Some (OObj ps) =>
           if decide (key = "__proto__") then (Stuck, h)
           else (Ret (), <[l := OObj (define_prop key v ps)]> h)
       | _ => (Throw TypeError, h)
       end.

(** [VRef l [key]] where [l] holds a plain object.  For [__proto__] the
    read is a call of the getter of the prototype. *)
Definition fetch (l : loc) (key : string) : M val :=
  λ h, match h !! l with
       | Some (OObj ps) =>
           if decide (key = "__proto__") then (Stuck, h)
           else (Ret (reads ps key), h)
       | _ => (Throw TypeError, h)
       end.

(** The elements of the receiver of an array method. *)
Definition elems_of (v : val) : M (list val) :=
  λ h, match v with
       | VRef l => match h !! l with
                   | Some (OArr es) => (Ret es, h)
                   | _ => (Throw TypeError, h)
                   end
       | _ => (Throw TypeError, h)
       end.

(** [a.concat(x)]: an array argument is spread, anything else is one item. *)
Definition concat (a x : val) : M val :=
  let! es := elems_of a in
  let! xs := read (λ h, match x with
                        | VRef l => match h !! l with
                                    | Some (OArr ys) => ys
                                    | _ => [x]
                                    end
                        | _ => [x]
                        end) in
  new (OArr (es ++ xs)).

(** [Object.keys(v)]; it raises on [null] and [undefined]. *)
Definition Object_keys (v : val) : M (list string) :=
  λ h, if nullish v then (Throw TypeError, h) else (Ret (own_props h v).*1, h).

(** [a.filter((val, index) => keep index)] on the elements of an array. *)
Fixpoint filter_index (keep : nat → bool) (i : nat) (es : list val) : list val :=
  match es with
  | [] => []
  | e :: es' =>
      if keep i then e :: filter_index keep (S i) es' else filter_index keep (S i) es'
  end.

(** ** Selectors, operations and the pending updates *)

(** A selector node is one of
    - a pointer marker, the string ["#" ++ tag];
    - a nested mapping (an object, or an array nested in one, whose keys
      are its positions), with its entries in [Object.keys] order;
    - any other string;
    - [null] or [undefined];
    - a value without enumerable keys: a number, a boolean, a function. *)
Inductive selector :=
| Marker (tag : string)
| Mapping (kids : list (string * selector))
| Text (s : string)
| Nullish
| Atom.

Definition marker_id (tag : string) : string := String "#"%char tag.

Inductive opname := OpSet | OpAppend | OpMerge | OpExtend | OpDelete | OpPipe.

#[global] Instance opname_eq_dec : EqDecision opname.
Proof. solve_decision. Defined.

Record updater := Updater { value : val; operation : opname }.

(** The state closed over by [selectorWrapper]. *)
Record session := Session {
  _originalObject : val;
  selector_ : selector;
  toUpdate : gmap string updater;
  targetPointer : string
}.

Section Reducer.

(** The behaviour of the user functions: [callback f v h] is the result of
    calling function [f] on [v] in store [h], [None] when it raises. *)
Variable callback : fid → val → heap → option val * heap.

Definition invoke (f : fid) (v : val) : M val :=
  λ h, match callback f v h with
       | (Some r, h') => (Ret r, h')
       | (None, h') => (Throw CallbackError, h')
       end.

Definition pipe (value predicate : val) : M val :=
  if nullish value || negb (bool_decide (typeof predicate = TyFunction))
  then ret value
  else match predicate with
       | VFun f => invoke f value
       | _ => throw TypeError
       end.

Definition set (oldValue newValue : val) : M val :=
  if nullish newValue then ret oldValue else ret newValue.

Definition extend (oldArray newArray : val) : M val :=
  let! na := read (λ h, isArray h newArray) in
  let! oa := read (λ h, isArray h oldArray) in
  if negb na || negb oa then ret oldArray
  else
    let! xs := elems_of newArray in
    if negb (List.length xs =? 0) then concat oldArray newArray
    else ret oldArray.

Definition append (oldList value : val) : M val :=
  let! oa := read (λ h, isArray h oldList) in
  if nullish value || negb oa then ret oldList
  else concat oldList value.

Definition merge (oldObject newObject : val) : M val :=
  if nullish newObject || negb (bool_decide (typeof newObject = TyObject))
  then ret oldObject
  else
    let! empty :=
      if bool_decide (typeof newObject = TyObject)
      then let! ks := Object_keys newObject in ret (List.length ks =? 0)
      else ret false in
    if empty then ret oldObject
    else Object_assign_new [oldObject; newObject].

(** In the object case each step of the [reduce] builds a new object by
    spreading the accumulator; only the last one is reachable, so the
    model allocates that one. *)
Definition deleteOp (oldObject key : val) : M val :=
  if nullish key then ret oldObject
  else
    let! oa := read (λ h, isArray h oldObject) in
    if oa then
      let! es := elems_of oldObject in
      new (OArr (filter_index
                   (λ index, negb (bool_decide (key = VNum (Z.of_nat index)))) 0 es))
    else if bool_decide (typeof oldObject = TyObject)
            && negb (bool_decide (oldObject = VNull)) then
      let! ks := Object_keys oldObject in
      let! ps := read (λ h, own_props h oldObject) in
      new (OObj (fold_left
                   (λ acc k, if bool_decide (VStr k = key)
                             then assign_props [] acc
                             else define_prop k (get ps k) (assign_props [] acc))
                   ks []))
    else ret oldObject.

Definition operationalMapper (op : opname) : val → val → M val :=
  match op with
  | OpSet => set
  | OpAppend => append
  | OpMerge => merge
  | OpExtend => extend
  | OpDelete => deleteOp
  | OpPipe => pipe
  end.

(** One resumption of [toUpdateCoro] with [{ updatePayload, pointer }];
    [coroutine] only starts the generator, and each [updateCoroutine.next]
    runs the body of the loop once on the closed-over [toUpdate]. *)
Definition toUpdateCoro (updatePayload : updater) (pointer : string)
    (toUpdate : gmap string updater) : gmap string updater :=
  if decide (pointer = "#") then <["default" := updatePayload]> toUpdate
  else if startsWith pointer "#" && (1 <? String.length pointer)
  then <[pointer := updatePayload]> toUpdate
  else toUpdate.

(** The target branch of [selectTransform]: [selectorObject] is a string
    that starts with '#'.  [updateKeys.indexOf(k) !== -1] followed by
    [toUpdate[k]] is the lookup of [k]. *)
Definition resolve (toUpdate : gmap string updater) (selectorObject : string)
    (originalObject : val) : M val :=
  let updateKeys := (map_to_list toUpdate).*1 in
  if List.length updateKeys =? 0 then throw OperationRequired
  else if decide (selectorObject = "#") then
    match toUpdate !! "default" with
    | Some updater => operationalMapper (operation updater) originalObject (value updater)
    | None => ret originalObject
    end
  else
    match toUpdate !! selectorObject with
    | Some updater => operationalMapper (operation updater) originalObject (value updater)
    | None => ret originalObject
    end.

(** The [for (const key of Object.keys(selectorObject))] loop over the
    clone at [clonedObject]; [recur] is [selectTransform] itself. *)
Fixpoint traverse (recur : selector → val → M val) (originalObject : val)
    (clonedObject : loc) (kids : list (string * selector)) : M val :=
  match kids with
  | [] => ret (VRef clonedObject)
  | (key, filteredObject) :: rest =>
      let! keyedObject := fetch clonedObject key in
      if nullish keyedObject then ret originalObject
      else
        let! r := recur filteredObject keyedObject in
        let! _ := put clonedObject key r in
        traverse recur originalObject clonedObject rest
  end.

(** [Object.keys(s)] and [s[key]] for a selector that is the string [s]:
    the positions of [s], each with the string of the character there. *)
Definition char_selector (a : Ascii.ascii) : selector :=
  if Ascii.eqb a "#" then Marker "" else Text (String a EmptyString).

Definition char_kids (s : string) : list (string * selector) :=
  imap (λ i a, (index_key i, char_selector a)) (String.list_ascii_of_string s).

(** [selectTransform] on a selector that is a string [s] not starting with
    '#'.  The loop runs over the characters of [s]; the call on a character
    other than '#' is again a call on a one-character string, and goes down
    the chain of the properties ['0'] of the object.  [depth] bounds the
    nesting of the calls; when it is used up the engine raises
    'Maximum call stack size exceeded'. *)
Fixpoint selectText (toUpdate : gmap string updater) (depth : nat) (s : string)
    (originalObject : val) : M val :=
  match depth with
  | 0 => throw RangeError
  | S d =>
      let! clonedObject := clone originalObject in
      match clonedObject with
      | VRef c =>
          traverse (λ filteredObject,
                      match filteredObject with
                      | Marker tag => resolve toUpdate (marker_id tag)
                      | Text t => selectText toUpdate d t
                      | _ => λ _, throw TypeError   (* not a character *)
                      end)
            originalObject c (char_kids s)
      | _ => throw TypeError   (* not reached: a new object is a reference *)
      end
  end.

(** For a string selector the model takes a depth that no chain of
    properties ['0'] in a well-formed store of that size exceeds unless it
    never ends (it comes back to an object of the chain, or comes to a
    string, whose ['0'] is a string again). *)
Fixpoint selectTransform (toUpdate : gmap string updater) (selectorObject : selector)
    (originalObject : val) : M val :=
  match selectorObject with
  | Marker tag => resolve toUpdate (marker_id tag) originalObject
  | Mapping kids =>
      let! clonedObject := clone originalObject in
      match clonedObject with
      | VRef c => traverse (selectTransform toUpdate) originalObject c kids
      | _ => throw TypeError   (* not reached: a new object is a reference *)
      end
  | Text s =>
      if startsWith s "#" then resolve toUpdate s originalObject
      else
        let! depth := read (λ h, List.length h + 3) in
        selectText toUpdate depth s originalObject
  | Nullish =>
      (* [Object.keys(selectorObject)] raises, after the clone is made *)
      let! clonedObject := clone originalObject in
      throw TypeError
  | Atom =>
      (* no key to visit: the clone is returned *)
      clone originalObject
  end.

(** ** The builder *)

Definition of_ (target : val) (s : session) : session :=
  if negb (truthy target) then s
  else match target with
       | VStr t =>
           if startsWith t "#" && (1 <? String.length t)
           then Session (_originalObject s) (selector_ s) (toUpdate s) t
           else s
       | _ => s
       end.

Definition operationFactory (operationName : opname) (value : val)
    (s : session) : session :=
  if negb (bool_decide (value = VUndef)) || negb (bool_decide (value = VNull))
  then Session (_originalObject s) (selector_ s)
         (toUpdateCoro (Updater value operationName) (targetPointer s) (toUpdate s))
         (targetPointer s)
  else s.

Definition apply (s : session) : M val :=
  selectTransform (toUpdate s) (selector_ s) (_originalObject s).

(** [reduce(selector)]: a selector that is not an object, or a mapping
    without keys, is refused.  (At the top a [Mapping] stands for an object
    that is not an array.) *)
Definition reduce (selector : selector) : outcome (val → session) :=
  match selector with
  | Mapping kids =>
      if List.length kids =? 0 then Throw InvalidSelector
      else Ret (λ _originalObject, Session _originalObject selector ∅ "#")
  | _ => Throw InvalidSelector
  end.

End Reducer.

(** ** Notions used to state the properties *)

(** Every object of [h] is still there, unchanged, in [h']. *)
Definition extends (h h' : heap) : Prop :=
  ∀ l o, h !! l = Some o → h' !! l = Some o.

(** The same, for the addresses that satisfy [P]. *)
Definition preserved (P : loc → Prop) (h h' : heap) : Prop :=
  ∀ l o, P l → h !! l = Some o → h' !! l = Some o.

(** A well-formed store: the keys of an object are pairwise distinct and
    every reference points into the store. *)
Definition val_ok (n : nat) (v : val) : Prop :=
  match v with VRef l => l < n | _ => True end.

Definition obj_ok (n : nat) (o : obj) : Prop :=
  match o with
  | OObj ps => NoDup ps.*1 ∧ Forall (val_ok n) ps.*2
  | OArr es => Forall (val_ok n) es
  end.

Definition heap_ok (h : heap) : Prop := Forall (obj_ok (List.length h)) h.

#[global] Instance val_ok_dec n v : Decision (val_ok n v).
Proof. destruct v; simpl; apply _. Defined.

#[global] Instance obj_ok_dec n o : Decision (obj_ok n o).
Proof. destruct o; simpl; apply _. Defined.

#[global] Instance heap_ok_dec h : Decision (heap_ok h).
Proof. unfold heap_ok. apply _. Defined.

(** The selectors of the specification: every leaf is a pointer marker,
    and (as in any JavaScript object) no mapping has a key twice. *)
Inductive valid_selector : selector → Prop :=
| valid_marker tag : valid_selector (Marker tag)
| valid_mapping kids :
    NoDup kids.*1 →
    Forall (λ kv, valid_selector kv.2) kids →
    valid_selector (Mapping kids).

(** The selectors on which the model follows the code throughout: valid,
    and without a key [__proto__]. *)
Inductive regular_selector : selector → Prop :=
| regular_marker tag : regular_selector (Marker tag)
| regular_mapping kids :
    NoDup kids.*1 →
    "__proto__" ∉ kids.*1 →
    Forall (λ kv, regular_selector kv.2) kids →
    regular_selector (Mapping kids).

(** No object of the store has an own property named [__proto__] (such as
    [JSON.parse] can make). *)
Definition no_proto_key (h : heap) : Prop :=
  Forall (λ o, match o with OObj ps => "__proto__" ∉ ps.*1 | OArr _ => True end) h.

#[global] Instance no_proto_key_dec h : Decision (no_proto_key h).
Proof. unfold no_proto_key. apply Forall_dec. intros [ps|es]; apply _. Defined.

(** [v[k]] for an own enumerable property, and a chain of such reads. *)
Definition child (h : heap) (v : val) (k : string) : option val :=
  assoc k (own_props h v).

Fixpoint walk (h : heap) (v : val) (path : list string) : option val :=
  match path with
  | [] => Some v
  | k :: rest =>
      match child h v k with
      | Some x => walk h x rest
      | None => None
      end
  end.

(** [unselected sel path]: [path] leaves the shape of the selector, at a
    mapping that does not have the next key. *)
Inductive unselected : selector → list string → Prop :=
| unselected_here kids k rest :
    k ∉ kids.*1 → unselected (Mapping kids) (k :: rest)
| unselected_below kids k sub rest :
    (k, sub) ∈ kids → unselected sub rest → unselected (Mapping kids) (k :: rest).

(** Does the traversal of a regular selector [sel] over [v] come to a
    pointer marker?  Keys are visited in order, each read from the clone of
    the node as the loop reads it; a key that reads as null or undefined
    ends the visit of its mapping. *)
Fixpoint reaches_marker (h : heap) (sel : selector) (v : val) : bool :=
  match sel with
  | Marker _ => true
  | Mapping kids =>
      (fix visit (kids : list (string * selector)) : bool :=
         match kids with
         | [] => false
         | (k, sub) :: rest =>
             let x := reads (own_props h v) k in
             if nullish x then false
             else reaches_marker h sub x || visit rest
         end) kids
  | _ => false
  end.

(** A deep copy of a value, to the given depth: what a snapshot for a
    deep-equality test records. *)
Inductive tree :=
| TUndef | TNull | TBool (b : bool) | TNum (n : Z) | TStr (s : string)
| TFun (f : fid)
| TObj (ps : list (string * tree))
| TArr (es : list tree)
| TCut.

Fixpoint snapshot (depth : nat) (h : heap) (v : val) : tree :=
  match v with
  | VUndef => TUndef
  | VNull => TNull
  | VBool b => TBool b
  | VNum n => TNum n
  | VStr s => TStr s
  | VFun f => TFun f
  | VRef l =>
      match depth with
      | 0 => TCut
      | S d =>
          match h !! l with
          | Some (OObj ps) => TObj ((λ kv, (kv.1, snapshot d h kv.2)) <$> ps)
          | Some (OArr es) => TArr (snapshot d h <$> es)
          | None => TCut
          end
      end
  end.


(** The slot of the pending updates that a pointer id is kept in. *)
Definition slot (pointer : string) : string :=
  if decide (pointer = "#") then "default" else pointer.

Definition is_pointer (p : string) : Prop := startsWith p "#" = true.

(** The sessions that a caller can build: [reduce(selector)(object)]
    followed by calls of [of] and of the operation methods. *)
Inductive built (object : val) (sel : selector) : session → Prop :=
| built_new : built object sel (Session object sel ∅ "#")
| built_of target s : built object sel s → built object sel (of_ target s)
| built_operation op v s :
    built object sel s → built object sel (operationFactory op v s).

(** What is assumed of the user functions: a pure function leaves every
    existing object as it is (it may allocate), a total one returns. *)
Definition pure_callbacks (callback : fid → val → heap → option val * heap) : Prop :=
  ∀ f v h r h', callback f v h = (r, h') → extends h h'.

Definition total_callbacks (callback : fid → val → heap → option val * heap) : Prop :=
  ∀ f v h, ∃ r h', callback f v h = (Some r, h').

(** ** Data of the examples *)

(** A table of user functions: function 0 wraps its argument in a new
    object [{wrapped: v}], every other one returns its argument. *)
Definition demo_callback : fid → val → heap → option val * heap :=
  λ f v h,
    match f with
    | 0 => (Some (VRef (List.length h)), h ++ [OObj [("wrapped", v)]])
    | _ => (Some v, h)
    end.

(** The object of the documentation of [reduce]:
    [{person: {name: 'John Cena', address: {permanent: 'Nepal', temporary: 'China'}}}],
    with the address at 0, the person at 1 and the whole at 2. *)
Definition person_heap : heap :=
  [ OObj [("permanent", VStr "Nepal"); ("temporary", VStr "China")];
    OObj [("name", VStr "John Cena"); ("address", VRef 0)];
    OObj [("person", VRef 1)] ].

Definition person_object : val := VRef 2.

(** [{person: {address: {permanent: '#'}}}] *)
Definition person_selector : selector :=
  Mapping [("person", Mapping [("address", Mapping [("permanent", Marker "")])])].

(** [reduce(selector)(deepObject).set('Holy land')] *)
Definition person_session : session :=
  operationFactory OpSet (VStr "Holy land")
    (Session person_object person_selector ∅ "#").

(** [{a: {x: 1}, b: {y: 2}}], with [a] at 0, [b] at 1 and the whole at 2,
    the selector [{a: {x: '#'}}] and the session [.set(9)]. *)
Definition ab_heap : heap :=
  [ OObj [("x", VNum 1)];
    OObj [("y", VNum 2)];
    OObj [("a", VRef 0); ("b", VRef 1)] ].

Definition ab_object : val := VRef 2.

Definition ab_selector : selector := Mapping [("a", Mapping [("x", Marker "")])].

Definition ab_session : session :=
  operationFactory OpSet (VNum 9) (Session ab_object ab_selector ∅ "#").

(** [{a: {x: '#'}, b: {z: '#'}}], whose second branch finds no [z] in
    [{y: 2}], with [.set(9)]. *)
Definition ab_wide_selector : selector :=
  Mapping [("a", Mapping [("x", Marker "")]); ("b", Mapping [("z", Marker "")])].

Definition ab_wide_session : session :=
  operationFactory OpSet (VNum 9) (Session ab_object ab_wide_selector ∅ "#").

(** The array [[1, 2]], at 0. *)
Definition list_heap : heap := [ OArr [VNum 1; VNum 2] ].

(** ** Three statements that the code does not satisfy as they stand *)





(** "The clone of a node is a container of the same kind as the node." *)
Definition clone_keeps_kind (callback : fid → val → heap → option val * heap)
    (led : gmap string updater) (kids : list (string * selector))
    (orig : val) (h : heap) : Prop :=
  ∀ res h',
    selectTransform callback led (Mapping kids) orig h = (Ret res, h') →
    isArray h' res = isArray h orig.

(** ** Notions used in the proofs *)

(** A computation that leaves every existing object as it is. *)
Definition grows {A} (m : M A) : Prop :=
  ∀ h o h', m h = (o, h') → extends h h'.

(** With [h0] the store in which the original was given: the result [res]
    has, at every unselected path, what the original has there; and the
    reads along the path only go through objects of [h0] and objects
    allocated from address [n] on. *)
Definition shared_from (h0 : heap) (n : nat) (sel : selector) (orig res : val)
    (hcur : heap) : Prop :=
  ∀ path x hf,
    unselected sel path →
    walk h0 orig path = Some x →
    preserved (λ l, l < List.length h0 ∨ n ≤ l) hcur hf →
    walk hf res path = Some x.

Definition shares (callback : fid → val → heap → option val * heap)
    (led : gmap string updater) (h0 : heap) (sel : selector) : Prop :=
  valid_selector sel →
  ∀ orig hm res hm',
    extends h0 hm →
    val_ok (List.length h0) orig →
    selectTransform callback led sel orig hm = (Ret res, hm') →
    shared_from h0 (List.length hm) sel orig res hm'.

(** What a run without recorded operations comes to. *)
Definition empty_run (callback : fid → val → heap → option val * heap)
    (h0 : heap) (sel : selector) : Prop :=
  regular_selector sel →
  ∀ orig hm,
    extends h0 hm →
    val_ok (List.length h0) orig →
    ∃ o hm',
      selectTransform callback ∅ sel orig hm = (o, hm')
      ∧ if reaches_marker h0 sel orig then o = Throw OperationRequired
        else ∃ r, o = Ret r.


(** [selects h sel v path tag y]: [path] follows the selector from [v] down
    to a marker ["#" ++ tag], whose leaf holds [y] in [v]; every mapping on
    the way has a child in the node for each of its keys. *)
Inductive selects (h : heap) : selector → val → list string → string → val → Prop :=
| selects_marker tag v : selects h (Marker tag) v [] tag v
| selects_mapping kids v k sub x rest tag y :
    (∀ k', k' ∈ kids.*1 → nullish (default VUndef (child h v k')) = false) →
    (k, sub) ∈ kids →
    child h v k = Some x →
    selects h sub x rest tag y →
    selects h (Mapping kids) v (k :: rest) tag y.

(** * Properties *)

(** ** Property lists *)

Lemma assoc_None k (ps : props) : assoc k ps = None ↔ k ∉ ps.*1.
Proof.
  induction ps as [|[k' v] ps IH]; simpl.
  - split; [intros _; apply not_elem_of_nil | done].
  - rewrite not_elem_of_cons. destruct (decide (k = k')) as [->|Hne].
    + split; [done | intros [? _]; done].
    + rewrite IH. tauto.
Qed.

Lemma assoc_Some_elem k v (ps : props) : assoc k ps = Some v → (k, v) ∈ ps.
Proof.
  induction ps as [|[k' v'] ps IH]; simpl; [done|].
  destruct (decide (k = k')) as [->|Hne].
  - intros [= ->]. apply list_elem_of_here.
  - intros H. apply list_elem_of_further, IH, H.
Qed.

Lemma assoc_replace_prop k v k' (ps : props) :
  is_Some (assoc k ps) →
  assoc k' (replace_prop k v ps) = if decide (k' = k) then Some v else assoc k' ps.
Proof.
  induction ps as [|[k0 v0] ps IH]; simpl.
  - intros [? ?]; done.
  - destruct (decide (k = k0)) as [->|Hne]; simpl.
    + intros _. by repeat case_decide.
    + intros H. rewrite (IH H). repeat case_decide; congruence.
Qed.

Lemma assoc_insert_index n k v k' (ps : props) :
  assoc k ps = None →
  assoc k' (insert_index n k v ps) = if decide (k' = k) then Some v else assoc k' ps.
Proof.
  induction ps as [|[k0 v0] ps IH]; simpl.
  - intros _. by repeat case_decide.
  - destruct (decide (k = k0)) as [->|Hne]; [done|]. intros H.
    destruct (array_index k0) as [m|]; [destruct (m <? n)%N|]; simpl;
      rewrite ?(IH H); repeat case_decide; congruence.
Qed.

Lemma assoc_app_new k v k' (ps : props) :
  assoc k ps = None →
  assoc k' (ps ++ [(k, v)]) = if decide (k' = k) then Some v else assoc k' ps.
Proof.
  induction ps as [|[k0 v0] ps IH]; simpl.
  - intros _. by repeat case_decide.
  - destruct (decide (k = k0)) as [->|Hne]; [done|]. intros H.
    rewrite (IH H). repeat case_decide; congruence.
Qed.

Lemma assoc_define_prop k v k' (ps : props) :
  assoc k' (define_prop k v ps) = if decide (k' = k) then Some v else assoc k' ps.
Proof.
  unfold define_prop. destruct (assoc k ps) as [w|] eqn:E.
  - apply assoc_replace_prop. rewrite E. eauto.
  - destruct (array_index k); [by apply assoc_insert_index | by apply assoc_app_new].
Qed.

Lemma assoc_assign_props k (target source : props) :
  NoDup source.*1 →
  assoc k (assign_props target source)
  = match assoc k source with Some v => Some v | None => assoc k target end.
Proof.
  unfold assign_props. revert target.
  induction source as [|[k0 v0] src IH]; intros target Hnd; simpl; [done|].
  simpl in Hnd. apply NoDup_cons in Hnd as [Hk0 Hnd].
  rewrite (IH _ Hnd), assoc_define_prop.
  destruct (decide (k = k0)) as [->|Hne]; [|done].
  apply assoc_None in Hk0. by rewrite Hk0.
Qed.

(** Array positions have distinct keys. *)
Lemma index_key_inj i j : index_key i = index_key j → i = j.
Proof.
  unfold index_key. intros H.
  assert (Some (Nat.to_uint i) = Some (Nat.to_uint j)) as E.
  { rewrite <- (NilEmpty.usu (Nat.to_uint i)), <- (NilEmpty.usu (Nat.to_uint j)).
    by rewrite H. }
  injection E as E. by apply Unsigned.to_uint_inj.
Qed.

Lemma indexed_keys_NoDup (es : list val) : NoDup (indexed es).*1.
Proof.
  unfold indexed. apply NoDup_alt. intros i j k.
  rewrite !list_lookup_fmap, !list_lookup_imap.
  destruct (es !! i) eqn:Ei; simpl; [|done]. intros [= <-].
  destruct (es !! j) eqn:Ej; simpl; [|done]. intros [= E].
  by apply index_key_inj.
Qed.

(** ** Stores only grow *)

Lemma extends_refl h : extends h h.
Proof. by intros l o. Qed.

Lemma extends_trans h1 h2 h3 : extends h1 h2 → extends h2 h3 → extends h1 h3.
Proof. intros H12 H23 l o H. by apply H23, H12. Qed.

Lemma extends_app h k : extends h (h ++ k).
Proof. intros l o H. by apply lookup_app_l_Some. Qed.

Lemma extends_length h h' : extends h h' → List.length h ≤ List.length h'.
Proof.
  intros Hext. destruct h as [|o h _] using rev_ind; [simpl; lia|].
  assert ((h ++ [o]) !! List.length h = Some o) as H.
  { by rewrite lookup_app_r, Nat.sub_diag by lia. }
  apply Hext, lookup_lt_Some in H. rewrite length_app. simpl. lia.
Qed.

Lemma extends_own_props h h' v :
  extends h h' → val_ok (List.length h) v → own_props h' v = own_props h v.
Proof.
  intros Hext Hv. destruct v; try done. unfold own_props, val_ok in *.
  destruct (lookup_lt_is_Some_2 h l Hv) as [o Ho].
  by rewrite Ho, (Hext _ _ Ho).
Qed.

Lemma grows_ret {A} (a : A) : grows (ret a).
Proof. intros h o h' [= _ <-]. apply extends_refl. Qed.

Lemma grows_throw {A} e : grows (@throw A e).
Proof. intros h o h' [= _ <-]. apply extends_refl. Qed.

Lemma grows_read {A} (f : heap → A) : grows (read f).
Proof. intros h o h' [= _ <-]. apply extends_refl. Qed.

Lemma grows_new o : grows (new o).
Proof. intros h r h' [= _ <-]. apply extends_app. Qed.

Lemma grows_bind {A B} (m : M A) (k : A → M B) :
  grows m → (∀ a, grows (k a)) → grows (bind m k).
Proof.
  intros Hm Hk h o h'. unfold bind.
  destruct (m h) as [[a|e|] h1] eqn:E.
  - intros H. eapply extends_trans; [by eapply Hm | by eapply Hk].
  - intros [= _ <-]. by eapply Hm.
  - intros [= _ <-]. by eapply Hm.
Qed.

Lemma grows_elems_of v : grows (elems_of v).
Proof.
  intros h o h'. unfold elems_of.
  repeat case_match; intros [= _ <-]; apply extends_refl.
Qed.

Lemma grows_Object_keys v : grows (Object_keys v).
Proof.
  intros h o h'. unfold Object_keys.
  case_match; intros [= _ <-]; apply extends_refl.
Qed.

Lemma grows_concat a x : grows (concat a x).
Proof.
  unfold concat. apply grows_bind; [apply grows_elems_of|]. intros es.
  apply grows_bind; [apply grows_read|]. intros xs. apply grows_new.
Qed.

Lemma grows_Object_assign_new sources : grows (Object_assign_new sources).
Proof. intros h o h'. unfold Object_assign_new. apply grows_new. Qed.

Lemma grows_clone v : grows (clone v).
Proof.
  intros h o h'. unfold clone. destruct (assoc _ _).
  - intros [= _ <-]. apply extends_refl.
  - apply grows_Object_assign_new.
Qed.

#[local] Hint Resolve grows_ret grows_throw grows_read grows_new grows_elems_of
  grows_Object_keys grows_concat grows_Object_assign_new grows_clone : grows.

Ltac grows_step :=
  first [ apply grows_bind; [|intros ?] | case_match | solve [eauto with grows] ].

Section Grows.

Variable callback : fid → val → heap → option val * heap.
Hypothesis callback_pure : pure_callbacks callback.

Lemma grows_invoke f v : grows (invoke callback f v).
Proof.
  intros h o h'. unfold invoke.
  destruct (callback f v h) as [[r|] h1] eqn:E; intros [= _ <-];
    by eapply callback_pure.
Qed.

Lemma grows_operation op old payload :
  grows (operationalMapper callback op old payload).
Proof.
  destruct op; simpl.
  - unfold set. repeat grows_step.
  - unfold append. repeat grows_step.
  - unfold merge. repeat grows_step.
  - unfold extend. repeat grows_step.
  - unfold deleteOp. repeat grows_step.
  - unfold pipe. repeat grows_step. apply grows_invoke.
Qed.

Lemma grows_resolve led p orig : grows (resolve callback led p orig).
Proof.
  unfold resolve. repeat case_match; eauto using grows_operation with grows.
Qed.

End Grows.

(** ** The traversal, one step at a time *)

Lemma selector_induction (P : selector → Prop) :
  (∀ tag, P (Marker tag)) →
  (∀ kids, Forall (λ kv, P kv.2) kids → P (Mapping kids)) →
  (∀ s, P (Text s)) →
  P Nullish →
  P Atom →
  ∀ sel, P sel.
Proof.
  intros Hm Hk Ht Hn Ha. fix IH 1.
  intros [tag|kids|s| |]; [apply Hm| |apply Ht|apply Hn|apply Ha].
  apply Hk. induction kids as [|[k sub] kids IHkids]; constructor; [apply IH | apply IHkids].
Qed.

Lemma fetch_ok c key ps h :
  h !! c = Some (OObj ps) → key ≠ "__proto__" →
  fetch c key h = (Ret (reads ps key), h).
Proof. intros H Hkey. unfold fetch. by rewrite H, decide_False. Qed.

Lemma put_ok c key v ps h :
  h !! c = Some (OObj ps) → key ≠ "__proto__" →
  put c key v h = (Ret (), <[c := OObj (define_prop key v ps)]> h).
Proof. intros H Hkey. unfold put. by rewrite H, decide_False. Qed.

Lemma traverse_cons recur orig c key sub rest ps h :
  h !! c = Some (OObj ps) →
  key ≠ "__proto__" →
  traverse recur orig c ((key, sub) :: rest) h
  = if nullish (reads ps key) then (Ret orig, h)
    else match recur sub (reads ps key) h with
         | (Ret r, h1) =>
             match put c key r h1 with
             | (Ret _, h2) => traverse recur orig c rest h2
             | (Throw e, h2) => (Throw e, h2)
             | (Stuck, h2) => (Stuck, h2)
             end
         | (Throw e, h1) => (Throw e, h1)
         | (Stuck, h1) => (Stuck, h1)
         end.
Proof.
  intros H Hkey. simpl. unfold bind at 1. rewrite (fetch_ok _ _ _ _ H Hkey).
  destruct (nullish (reads ps key)); [done|].
  unfold bind at 1. destruct (recur sub (reads ps key) h) as [[r|e|] h1]; [|done|done].
  unfold bind at 1. by destruct (put c key r h1) as [[[]|e|] h2].
Qed.

(** A key [__proto__] is where the model stops. *)
Lemma traverse_proto recur orig c sub rest ps h :
  h !! c = Some (OObj ps) →
  traverse recur orig c (("__proto__", sub) :: rest) h = (Stuck, h).
Proof. intros H. simpl. unfold bind, fetch. by rewrite H. Qed.

Lemma selectTransform_Mapping callback led kids orig h :
  selectTransform callback led (Mapping kids) orig h
  = match assoc "__proto__" (own_props h orig) with
    | Some _ => (Stuck, h)
    | None =>
        traverse (selectTransform callback led) orig (List.length h) kids
          (h ++ [OObj (assign_props [] (own_props h orig))])
    end.
Proof. simpl. unfold bind, clone. by destruct (assoc _ _). Qed.

Lemma selectTransform_Text callback led s orig :
  selectTransform callback led (Text s) orig
  = if startsWith s "#" then resolve callback led s orig
    else let! depth := read (λ h, List.length h + 3) in
         selectText callback led depth s orig.
Proof. done. Qed.

Lemma selectText_S callback led d s orig h :
  selectText callback led (S d) s orig h
  = match assoc "__proto__" (own_props h orig) with
    | Some _ => (Stuck, h)
    | None =>
        traverse (λ filteredObject,
                    match filteredObject with
                    | Marker tag => resolve callback led (marker_id tag)
                    | Text t => selectText callback led d t
                    | _ => λ _, throw TypeError
                    end)
          orig (List.length h) (char_kids s)
          (h ++ [OObj (assign_props [] (own_props h orig))])
    end.
Proof. simpl. unfold bind, clone. by destruct (assoc _ _). Qed.

Lemma lookup_new_cell (h : heap) o : (h ++ [o]) !! List.length h = Some o.
Proof. by rewrite lookup_app_r, Nat.sub_diag by lia. Qed.

Lemma preserved_insert c o (h : heap) : preserved (λ l, l ≠ c) h (<[c := o]> h).
Proof. intros l x Hl H. by rewrite list_lookup_insert_ne. Qed.

Lemma preserved_trans P h1 h2 h3 :
  preserved P h1 h2 → preserved P h2 h3 → preserved P h1 h3.
Proof. intros H12 H23 l o Hl H. by apply H23, H12. Qed.

Lemma extends_preserved P h h' : extends h h' → preserved P h h'.
Proof. intros H l o _. apply H. Qed.

(** The loop writes to the clone only, which stays a plain object. *)
Lemma traverse_frame recur orig c kids :
  Forall (λ kv, ∀ v, grows (recur kv.2 v)) kids →
  ∀ h ps o h',
    h !! c = Some (OObj ps) →
    traverse recur orig c kids h = (o, h') →
    preserved (λ l, l ≠ c) h h' ∧ ∃ ps', h' !! c = Some (OObj ps').
Proof.
  induction 1 as [|[key sub] rest Hsub _ IH]; intros h ps o h' Hc.
  - intros [= _ <-]. split; [by intros l x _|eauto].
  - destruct (decide (key = "__proto__")) as [->|Hkey].
    { rewrite (traverse_proto _ _ _ _ _ _ _ Hc). intros [= _ <-].
      split; [by intros l x _|eauto]. }
    rewrite (traverse_cons _ _ _ _ _ _ _ _ Hc Hkey).
    destruct (nullish (reads ps key)).
    { intros [= _ <-]. split; [by intros l x _|eauto]. }
    destruct (recur sub (reads ps key) h) as [[r|e|] h1] eqn:E.
    + pose proof (Hsub _ _ _ _ E) as Hext. simpl in Hext.
      rewrite (put_ok _ _ _ _ _ (Hext _ _ Hc) Hkey). intros Hrest.
      assert (c < List.length h1) as Hlt by (by eapply lookup_lt_Some, Hext).
      eapply IH in Hrest as [Hpres Hcell];
        [|by apply list_lookup_insert_eq].
      split; [|done].
      eapply preserved_trans; [apply extends_preserved, Hext|].
      eapply preserved_trans; [apply preserved_insert|done].
    + intros [= _ <-]. pose proof (Hsub _ _ _ _ E) as Hext.
      split; [by apply extends_preserved|eauto].
    + intros [= _ <-]. pose proof (Hsub _ _ _ _ E) as Hext.
      split; [by apply extends_preserved|eauto].
Qed.

(** A loop over a fresh clone leaves the store it started from as it is. *)
Lemma traverse_clone_grows recur orig kids ps h :
  Forall (λ kv, ∀ v, grows (recur kv.2 v)) kids →
  ∀ o h', traverse recur orig (List.length h) kids (h ++ [OObj ps]) = (o, h') →
          extends h h'.
Proof.
  intros Hall o h' H.
  eapply traverse_frame in H as [Hpres _]; [|done|apply lookup_new_cell].
  intros l x Hl. apply Hpres.
  - apply lookup_lt_Some in Hl. lia.
  - by apply lookup_app_l_Some.
Qed.

Section Frame.

Variable callback : fid → val → heap → option val * heap.
Variable led : gmap string updater.

(** The leaf step leaves every existing object as it is: this is so when
    the user functions are pure, and when nothing has been recorded. *)
Hypothesis resolve_grows : ∀ p v, grows (resolve callback led p v).

Lemma selectText_grows depth :
  ∀ s orig, grows (selectText callback led depth s orig).
Proof.
  induction depth as [|d IH]; intros s orig; [apply grows_throw|].
  intros h o h'. rewrite selectText_S.
  destruct (assoc _ _); [intros [= _ <-]; apply extends_refl|].
  apply traverse_clone_grows.
  apply Forall_forall. intros [k sub] _ v. simpl.
  destruct sub; first [apply resolve_grows | apply IH | apply grows_throw].
Qed.

Lemma selectTransform_grows_gen sel :
  ∀ orig, grows (selectTransform callback led sel orig).
Proof.
  induction sel as [tag|kids IH|s| |] using selector_induction; intros orig.
  - simpl. apply resolve_grows.
  - intros h o h'. rewrite selectTransform_Mapping.
    destruct (assoc _ _); [intros [= _ <-]; apply extends_refl|].
    by apply traverse_clone_grows.
  - rewrite selectTransform_Text. destruct (startsWith s "#"); [apply resolve_grows|].
    apply grows_bind; [apply grows_read|]. intros depth. apply selectText_grows.
  - simpl. apply grows_bind; [apply grows_clone|].
    intros c. apply grows_throw.
  - simpl. apply grows_clone.
Qed.

End Frame.

Lemma selectTransform_grows callback (callback_pure : pure_callbacks callback) led sel :
  ∀ orig, grows (selectTransform callback led sel orig).
Proof.
  apply selectTransform_grows_gen. intros p v. by apply grows_resolve.
Qed.

(** ** Immutability *)

Lemma heap_ok_lookup h l o : heap_ok h → h !! l = Some o → obj_ok (List.length h) o.
Proof. intros Hok Hl. by eapply Forall_lookup_1 in Hok. Qed.

Lemma snapshot_extends h h' :
  extends h h' → heap_ok h →
  ∀ d v, val_ok (List.length h) v → snapshot d h' v = snapshot d h v.
Proof.
  intros Hext Hok. induction d as [|d IH]; intros [| | | | | |l] Hv; try done.
  simpl in Hv. destruct (lookup_lt_is_Some_2 h l Hv) as [o Ho].
  simpl. rewrite Ho, (Hext _ _ Ho).
  pose proof (heap_ok_lookup _ _ _ Hok Ho) as Hobj.
  destruct o as [ps|es]; simpl in Hobj; f_equal.
  - destruct Hobj as [_ Hvals]. apply Forall_fmap_ext_1.
    rewrite Forall_fmap in Hvals. eapply Forall_impl; [exact Hvals|].
    intros [k x] Hx. simpl in *. by rewrite IH.
  - apply Forall_fmap_ext_1. eapply Forall_impl; [exact Hobj|].
    intros x Hx. by apply IH.
Qed.

Lemma demo_callback_pure : pure_callbacks demo_callback.
Proof.
  intros [|f] v h r h'; simpl; intros [= _ <-];
    [apply extends_app | apply extends_refl].
Qed.

Lemma demo_callback_total : total_callbacks demo_callback.
Proof. intros [|f] v h; simpl; eauto. Qed.

Lemma person_heap_ok : heap_ok person_heap.
Proof. by apply (bool_decide_unpack _). Qed.

(** C2. With pure user functions, [apply()] leaves every object that
    existed before the call exactly as it was, whatever the selector and
    the queued operations and whether it returns or raises; so the original
    object is deep-equal, to any depth, to a snapshot taken before. *)
Theorem apply_never_mutates callback s h o h' :
  pure_callbacks callback →
  heap_ok h →
  val_ok (List.length h) (_originalObject s) →
  apply callback s h = (o, h') →
  extends h h'
  ∧ ∀ d, snapshot d h' (_originalObject s) = snapshot d h (_originalObject s).
Proof.
  intros Hpure Hok Hv Hrun.
  assert (extends h h') as Hext by (by eapply selectTransform_grows).
  split; [done|]. intros d. by apply snapshot_extends.
Qed.

Lemma apply_never_mutates_witness :
  pure_callbacks demo_callback
  ∧ heap_ok person_heap
  ∧ extends person_heap (apply demo_callback person_session person_heap).2
  ∧ ∀ d, snapshot d (apply demo_callback person_session person_heap).2 person_object
         = snapshot d person_heap person_object.
Proof.
  split; [exact demo_callback_pure|]. split; [exact person_heap_ok|].
  apply (apply_never_mutates demo_callback person_session person_heap
           (apply demo_callback person_session person_heap).1).
  - exact demo_callback_pure.
  - exact person_heap_ok.
  - simpl. lia.
  - apply surjective_pairing.
Defined.

(** ** The operations *)

Lemma isArray_elems h v :
  isArray h v = true → ∃ es, elems_of v h = (Ret es, h) ∧ own_props h v = indexed es.
Proof.
  unfold isArray, elems_of, own_props. destruct v as [| | | | | |l]; try done.
  destruct (h !! l) as [[ps|es]|]; try done. eauto.
Qed.


Ltac run_op :=
  unfold set, append, merge, extend, deleteOp, pipe, concat, Object_keys,
    Object_assign_new, new, bind, read, ret, throw.

(** The five operations that call no user function never raise: every
    method call in them is behind the guard it needs. *)
Lemma builtin_operation_returns callback op old payload h :
  op ≠ OpPipe →
  ∃ v h', operationalMapper callback op old payload h = (Ret v, h').
Proof.
  intros Hop. destruct op; try done; simpl; run_op.
  - destruct (nullish payload); eauto.
  - destruct (nullish payload); simpl; [eauto|].
    destruct (isArray h old) eqn:E; simpl; [|eauto].
    apply isArray_elems in E as (es & -> & _). eauto.
  - destruct (nullish payload) eqn:E; simpl; [eauto|].
    destruct (bool_decide (typeof payload = TyObject)); simpl; [|eauto].
    destruct (List.length _ =? 0); eauto.
  - destruct (isArray h payload) eqn:Ep; simpl; [|eauto].
    destruct (isArray h old) eqn:Eo; simpl; [|eauto].
    destruct (isArray_elems _ _ Ep) as (xs & Hxs & _). rewrite Hxs.
    destruct (List.length xs =? 0); simpl; [eauto|].
    apply isArray_elems in Eo as (es & -> & _). eauto.
  - destruct (nullish payload); simpl; [eauto|].
    destruct (isArray h old) eqn:Eo.
    + apply isArray_elems in Eo as (es & -> & _). eauto.
    + destruct (bool_decide (typeof old = TyObject) && _) eqn:E; [|eauto].
      apply andb_prop in E as [E1 E2].
      destruct old; try (by vm_compute in E1); try (by vm_compute in E2);
        simpl; eauto.
Qed.

Lemma pipe_unfold callback old payload h :
  pipe callback old payload h
  = if negb (bool_decide (typeof payload = TyFunction)) || nullish old
    then (Ret old, h)
    else match payload with
         | VFun f => invoke callback f old h
         | _ => (Throw TypeError, h)
         end.
Proof.
  unfold pipe.
  rewrite (orb_comm (negb (bool_decide (typeof payload = TyFunction)))).
  destruct (nullish old || _); [done|]. by destruct payload.
Qed.

Lemma operation_returns callback op old payload h :
  total_callbacks callback →
  ∃ v h', operationalMapper callback op old payload h = (Ret v, h').
Proof.
  intros Htotal. destruct (decide (op = OpPipe)) as [->|Hop];
    [|by apply builtin_operation_returns].
  simpl. rewrite pipe_unfold. destruct (negb _ || nullish old) eqn:E; [eauto|].
  apply orb_false_elim in E as [E _]. apply negb_false_iff in E.
  destruct payload; try done. unfold invoke.
  destruct (Htotal f old h) as (r & h' & ->). eauto.
Qed.








(** ** The pending updates *)

Lemma ledger_empty_test (led : gmap string updater) :
  (List.length (map_to_list led).*1 =? 0) = bool_decide (led = ∅).
Proof.
  rewrite length_fmap. destruct (decide (led = ∅)) as [->|Hne].
  - by rewrite map_to_list_empty.
  - rewrite bool_decide_eq_false_2 by done. apply Nat.eqb_neq.
    intros Hlen. apply Hne, map_to_list_empty_iff.
    by apply nil_length_inv.
Qed.

Lemma resolve_unfold callback led p orig :
  resolve callback led p orig
  = if bool_decide (led = ∅) then throw OperationRequired
    else match led !! slot p with
         | Some u => operationalMapper callback (operation u) orig (value u)
         | None => ret orig
         end.
Proof.
  unfold resolve, slot. rewrite ledger_empty_test.
  destruct (bool_decide (led = ∅)); [done|]. by destruct (decide (p = "#")).
Qed.

Lemma pointer_length p : is_pointer p → p ≠ "#" → (1 <? String.length p) = true.
Proof.
  unfold is_pointer.
  destruct p as [|a [|b p]]; cbn [startsWith]; intros Hp Hne; try done.
  apply andb_prop in Hp as [Hp _]. apply Ascii.eqb_eq in Hp. by subst.
Qed.

Lemma toUpdateCoro_pointer u p (led : gmap string updater) :
  is_pointer p → toUpdateCoro u p led = <[slot p := u]> led.
Proof.
  intros Hp. unfold toUpdateCoro, slot.
  destruct (decide (p = "#")) as [->|Hne]; [done|].
  unfold is_pointer in Hp. by rewrite Hp, pointer_length.
Qed.

Lemma marker_is_pointer tag : is_pointer (marker_id tag).
Proof. reflexivity. Qed.

Lemma slot_inj p q : is_pointer p → is_pointer q → slot p = slot q → p = q.
Proof.
  unfold slot, is_pointer. intros Hp Hq.
  destruct (decide (p = "#")) as [->|], (decide (q = "#")) as [->|];
    try done; intros E; subst;
    first [by vm_compute in Hp | by vm_compute in Hq].
Qed.

Lemma always_records (value : val) :
  negb (bool_decide (value = VUndef)) || negb (bool_decide (value = VNull)) = true.
Proof. by destruct value. Qed.

Lemma operationFactory_unfold op v s :
  operationFactory op v s
  = Session (_originalObject s) (selector_ s)
      (toUpdateCoro (Updater v op) (targetPointer s) (toUpdate s)) (targetPointer s).
Proof. unfold operationFactory. by rewrite always_records. Qed.

Lemma of_pointer a s :
  is_pointer a → a ≠ "#" →
  of_ (VStr a) s = Session (_originalObject s) (selector_ s) (toUpdate s) a.
Proof.
  intros Ha Hne. unfold of_, truthy. cbv beta iota.
  rewrite (pointer_length _ Ha Hne). unfold is_pointer in Ha. rewrite Ha.
  destruct (String.eqb a "") eqn:E; [|done].
  apply String.eqb_eq in E. by subst.
Qed.

(** The current pointer of a session is always a pointer id. *)
Lemma built_pointer object sel s : built object sel s → is_pointer (targetPointer s).
Proof.
  induction 1 as [|target s _ IH|op v s _ IH]; [done| |].
  - unfold of_. destruct (negb (truthy target)); [done|].
    destruct target; try done.
    destruct (startsWith s0 "#") eqn:E; [|done].
    by destruct (1 <? String.length s0).
  - by rewrite operationFactory_unfold.
Qed.

(** C7. An operation is recorded in the slot of the current pointer:
    ["default"] for ["#"], the pointer string itself otherwise, and [of]
    makes any other pointer id current.  A leaf reads the slot of its own
    marker by exact lookup and no other.  Hence recording under one pointer
    leaves the outcome at a leaf marked with a different id as it was (the
    leaf keeps its value when this is the first operation recorded). *)
Theorem pointer_resolution_exact callback s b op v orig h :
  is_pointer (targetPointer s) →
  marker_id b ≠ targetPointer s →
  let s' := operationFactory op v s in
  toUpdate s' = <[slot (targetPointer s) := Updater v op]> (toUpdate s)
  ∧ slot "#" = "default"
  ∧ (∀ p, p ≠ "#" → slot p = p)
  ∧ (∀ a, is_pointer a → a ≠ "#" → targetPointer (of_ (VStr a) s) = a)
  ∧ (∀ led tag, led ≠ ∅ →
       selectTransform callback led (Marker tag) orig
       = match led !! slot (marker_id tag) with
         | Some u => operationalMapper callback (operation u) orig (value u)
         | None => ret orig
         end)
  ∧ selectTransform callback (toUpdate s') (Marker b) orig h
    = if bool_decide (toUpdate s = ∅) then (Ret orig, h)
      else selectTransform callback (toUpdate s) (Marker b) orig h.
Proof.
  intros Hp Hb s'.
  assert (toUpdate s' = <[slot (targetPointer s) := Updater v op]> (toUpdate s))
    as Hled.
  { unfold s'. rewrite operationFactory_unfold. simpl.
    by apply toUpdateCoro_pointer. }
  split; [done|]. split; [done|]. split; [|split; [|split]].
  - intros p Hne. unfold slot. by rewrite decide_False.
  - intros a Ha Hne. by rewrite of_pointer.
  - intros led tag Hled'. simpl. rewrite resolve_unfold.
    by rewrite bool_decide_eq_false_2 by done.
  - simpl. rewrite !resolve_unfold, Hled.
    rewrite (bool_decide_eq_false_2 (<[_:=_]> _ = ∅)) by apply insert_non_empty.
    rewrite lookup_insert_ne.
    + destruct (decide (toUpdate s = ∅)) as [E|E].
      * rewrite bool_decide_eq_true_2 by done. by rewrite E, lookup_empty.
      * by rewrite bool_decide_eq_false_2.
    + intros E. apply Hb. symmetry. apply slot_inj; [done | apply marker_is_pointer | done].
Qed.

(** [of('#/a').set(1)] and a leaf marked ['#/b'], in a session that has
    already recorded [set('Holy land')] under ['#']. *)
Lemma pointer_resolution_exact_witness :
  let s := of_ (VStr "#/a") person_session in
  selectTransform demo_callback (toUpdate (operationFactory OpSet (VNum 1) s))
    (Marker "/b") (VNum 7) person_heap
  = (Ret (VNum 7), person_heap).
Proof.
  intros s.
  pose proof (pointer_resolution_exact demo_callback s "/b" OpSet (VNum 1)
                (VNum 7) person_heap) as H.
  destruct H as (_ & _ & _ & _ & _ & H); [reflexivity | done |].
  rewrite H. reflexivity.
Defined.

(** ** The example of the documentation *)

(** C3. On the object and the selector of the documentation,
    [.set('Holy land').apply()] returns a new object that is deep-equal to
    the expected one; its [person.address] is a new object, not the
    original one, and the leaves that were not selected are unchanged. *)
Theorem end_to_end_example callback :
  ∃ mk res h',
    reduce person_selector = Ret mk
    ∧ apply callback (operationFactory OpSet (VStr "Holy land") (mk person_object))
        person_heap = (Ret res, h')
    ∧ snapshot 3 h' res
      = TObj [("person",
               TObj [("name", TStr "John Cena");
                     ("address", TObj [("permanent", TStr "Holy land");
                                       ("temporary", TStr "China")])])]
    ∧ walk person_heap person_object ["person"; "address"] = Some (VRef 0)
    ∧ walk h' res ["person"; "address"] = Some (VRef 5)
    ∧ walk h' res ["person"; "name"] = Some (VStr "John Cena")
    ∧ walk h' res ["person"; "address"; "temporary"] = Some (VStr "China")
    ∧ extends person_heap h'.
Proof.
  eexists _, _, _. split; [reflexivity|]. split; [by vm_compute|].
  repeat split; try by vm_compute.
  apply (extends_app person_heap).
Qed.

(** ** Structural sharing *)

Lemma child_mono h h' v k x : extends h h' → child h v k = Some x → child h' v k = Some x.
Proof.
  intros Hext. unfold child, own_props. destruct v as [| | | | | |l]; try done.
  destruct (h !! l) as [o|] eqn:E; [|done]. by rewrite (Hext _ _ E).
Qed.

Lemma walk_mono h h' path :
  extends h h' → ∀ v x, walk h v path = Some x → walk h' v path = Some x.
Proof.
  intros Hext. induction path as [|k path IH]; intros v x; simpl; [done|].
  destruct (child h v k) as [y|] eqn:E; [|done].
  rewrite (child_mono _ _ _ _ _ Hext E). apply IH.
Qed.

Lemma own_props_NoDup h v : heap_ok h → NoDup (own_props h v).*1.
Proof.
  intros Hok. unfold own_props. destruct v as [| | | | | |l]; try apply NoDup_nil_2.
  - apply indexed_keys_NoDup.
  - destruct (h !! l) as [[ps|es]|] eqn:E; [|apply indexed_keys_NoDup|apply NoDup_nil_2].
    by destruct (heap_ok_lookup _ _ _ Hok E).
Qed.

Lemma indexed_values es : (indexed es).*2 = es.
Proof.
  unfold indexed. apply list_eq. intros i.
  rewrite list_lookup_fmap, list_lookup_imap. by destruct (es !! i).
Qed.

Lemma child_ok h v k x : heap_ok h → child h v k = Some x → val_ok (List.length h) x.
Proof.
  intros Hok Hx. apply assoc_Some_elem in Hx.
  assert (x ∈ (own_props h v).*2) as Hin.
  { apply list_elem_of_fmap. by exists (k, x). }
  revert Hin. unfold own_props. destruct v as [| | | | | |l].
  1-4, 6: by intros ?%elem_of_nil.
  - rewrite indexed_values. unfold chars.
    intros (a & -> & _)%list_elem_of_fmap. done.
  - destruct (h !! l) as [[ps|es]|] eqn:E; [| |by intros ?%elem_of_nil].
    + destruct (heap_ok_lookup _ _ _ Hok E) as [_ Hvals].
      intros Hin. by eapply Forall_forall in Hvals.
    + pose proof (heap_ok_lookup _ _ _ Hok E) as Hvals. simpl in Hvals.
      rewrite indexed_values. intros Hin. by eapply Forall_forall in Hvals.
Qed.

(** The clone starts with the properties of the original. *)
Lemma assoc_clone h v k : heap_ok h → assoc k (assign_props [] (own_props h v)) = child h v k.
Proof.
  intros Hok. rewrite assoc_assign_props by by apply own_props_NoDup.
  unfold child. by destruct (assoc k (own_props h v)).
Qed.

Lemma reads_own ps k x : assoc k ps = Some x → reads ps k = x.
Proof. unfold reads. by intros ->. Qed.

Lemma reads_inherited ps k :
  assoc k ps = None →
  reads ps k = match member k Object_prototype with Some f => VFun f | None => VUndef end.
Proof. unfold reads. by intros ->. Qed.

Lemma reads_nullish ps k :
  nullish (reads ps k) = true → nullish (default VUndef (assoc k ps)) = true.
Proof. unfold reads. by destruct (assoc k ps). Qed.

Lemma reads_ok n ps k : Forall (val_ok n) ps.*2 → val_ok n (reads ps k).
Proof.
  intros Hall. unfold reads. destruct (assoc k ps) as [x|] eqn:E.
  - apply assoc_Some_elem in E. eapply Forall_forall in Hall; [done|].
    apply list_elem_of_fmap. by exists (k, x).
  - by destruct (member k Object_prototype).
Qed.

Section Sharing.

Variable callback : fid → val → heap → option val * heap.
Hypothesis callback_pure : pure_callbacks callback.
Variable led : gmap string updater.

(** [h0] is the store in which the original object was given. *)
Variable h0 : heap.
Hypothesis h0_ok : heap_ok h0.

Lemma traverse_shares orig c kids :
  Forall (λ kv, shares callback led h0 kv.2) kids →
  Forall (λ kv, valid_selector kv.2) kids →
  NoDup kids.*1 →
  List.length h0 ≤ c →
  ∀ hs ps res hf,
    extends h0 hs →
    hs !! c = Some (OObj ps) →
    (∀ k, k ∈ kids.*1 → assoc k ps = child h0 orig k) →
    traverse (selectTransform callback led) orig c kids hs = (Ret res, hf) →
    (res = orig
     ∧ ∃ k, k ∈ kids.*1 ∧ nullish (default VUndef (child h0 orig k)) = true)
    ∨ (res = VRef c
       ∧ ∃ psf, hf !! c = Some (OObj psf)
           ∧ (∀ k, k ∉ kids.*1 → assoc k psf = assoc k ps)
           ∧ (∀ k sub x, (k, sub) ∈ kids → child h0 orig k = Some x →
                ∃ r, assoc k psf = Some r ∧ shared_from h0 (S c) sub x r hf)).
Proof.
  intros Hsh Hvalid Hnd Hc. revert Hvalid Hnd.
  induction Hsh as [|[key sub] rest Hsub _ IH]; intros Hvalid Hnd hs ps res hf Hext Hcell Hps.
  - intros [= <- <-]. right. split; [done|]. exists ps. split; [done|].
    split; [done|]. by intros k sub x ?%elem_of_nil.
  - apply Forall_cons in Hvalid as [Hvsub Hvalid].
    simpl in Hnd. apply NoDup_cons in Hnd as [Hkey Hnd].
    destruct (decide (key = "__proto__")) as [->|Hproto].
    { by rewrite (traverse_proto _ _ _ _ _ _ _ Hcell). }
    rewrite (traverse_cons _ _ _ _ _ _ _ _ Hcell Hproto).
    destruct (nullish (reads ps key)) eqn:Enull.
    { intros [= <- <-]. left. split; [done|]. exists key.
      split; [simpl; apply list_elem_of_here|].
      rewrite <- Hps by (simpl; apply list_elem_of_here). by apply reads_nullish. }
    set (x := reads ps key) in *.
    assert (∀ y, child h0 orig key = Some y → y = x) as Hx.
    { intros y Hy. rewrite <- Hps in Hy by (simpl; apply list_elem_of_here).
      unfold x. by rewrite (reads_own _ _ _ Hy). }
    destruct (selectTransform callback led sub x hs) as [[r|e|] h1] eqn:Erec; [|done|done].
    pose proof (selectTransform_grows _ callback_pure _ _ _ _ _ _ Erec) as Hgrow.
    rewrite (put_ok _ _ _ _ _ (Hgrow _ _ Hcell) Hproto).
    set (ps2 := define_prop key r ps). set (h2 := <[c := OObj ps2]> h1).
    assert (c < List.length hs) as Hlt by (by eapply lookup_lt_Some).
    assert (c < List.length h1) as Hlt1 by (by eapply lookup_lt_Some, Hgrow).
    intros Hrest.
    assert (preserved (λ l, l ≠ c) h2 hf) as Hframe.
    { eapply traverse_frame; [| |exact Hrest].
      - apply Forall_forall. intros kv _ v. by apply selectTransform_grows.
      - by apply list_lookup_insert_eq. }
    assert (∀ y, child h0 orig key = Some y → shared_from h0 (S c) sub y r hf) as Hshared.
    { intros y Hy path z hf' Hun Hwalk Hpres. pose proof (Hx _ Hy) as ->.
      apply (Hsub Hvsub x hs r h1 Hext (child_ok _ _ _ _ h0_ok Hy) Erec path z hf' Hun Hwalk).
      intros l o Hl Hlook. apply Hpres; [lia|].
      apply Hframe; [lia|]. unfold h2. rewrite list_lookup_insert_ne by lia. done. }
    assert (extends h0 h2) as Hext2.
    { intros l o Hl. unfold h2.
      rewrite list_lookup_insert_ne by (apply lookup_lt_Some in Hl; lia).
      by apply Hgrow, Hext. }
    assert (h2 !! c = Some (OObj ps2)) as Hcell2
      by (by apply list_lookup_insert_eq).
    assert (∀ k, k ∈ rest.*1 → assoc k ps2 = child h0 orig k) as Hps2.
    { intros k Hk. unfold ps2. rewrite assoc_define_prop.
      rewrite decide_False; [|by intros ->].
      apply Hps. simpl. by apply list_elem_of_further. }
    destruct (IH Hvalid Hnd h2 ps2 res hf Hext2 Hcell2 Hps2 Hrest)
      as [(-> & k & Hk & Hnull)|(-> & psf & Hpsf & Hout & Hin)].
    { left. split; [done|]. exists k. split; [|done].
      simpl. by apply list_elem_of_further. }
    right. split; [done|]. exists psf. split; [done|]. split.
    + intros k Hk. apply not_elem_of_cons in Hk as [Hne Hk].
      rewrite (Hout _ Hk). unfold ps2. rewrite assoc_define_prop.
      by rewrite decide_False.
    + intros k sub' x' Hk Hx'. apply elem_of_cons in Hk as [[= -> ->]|Hk].
      * exists r. split; [|by apply Hshared]. rewrite (Hout _ Hkey). unfold ps2.
        rewrite assoc_define_prop. by rewrite decide_True.
      * by eapply Hin.
Qed.

Lemma selectTransform_shares sel : shares callback led h0 sel.
Proof.
  induction sel as [tag|kids IH|s| |] using selector_induction;
    intros Hvalid orig hm res hm' Hext Horig Hrun; [| |inversion Hvalid..].
  - intros path x hf Hun. inversion Hun.
  - inversion Hvalid as [|? Hnd Hkids]; subst.
    pose proof (selectTransform_grows _ callback_pure _ _ _ _ _ _ Hrun) as Hgrow.
    rewrite selectTransform_Mapping in Hrun.
    rewrite (extends_own_props _ _ _ Hext Horig) in Hrun.
    destruct (assoc "__proto__" (own_props h0 orig)); [done|].
    pose proof (extends_length _ _ Hext) as Hlen.
    set (c := List.length hm) in *.
    set (ps := assign_props [] (own_props h0 orig)) in *.
    assert (extends h0 (hm ++ [OObj ps])) as Hext1.
    { intros l o Hl. apply lookup_app_l_Some. by apply Hext. }
    assert (∀ k, k ∈ kids.*1 → assoc k ps = child h0 orig k) as Hps.
    { intros k _. by apply assoc_clone. }
    pose proof (traverse_shares orig c kids IH Hkids Hnd Hlen _ ps res hm'
                  Hext1 (lookup_new_cell _ _) Hps Hrun) as Hres.
    intros path x hf Hun Hwalk Hpres.
    assert (extends h0 hf) as Hext'.
    { intros l o Hl. apply Hpres; [apply lookup_lt_Some in Hl; lia|].
      by apply Hgrow, Hext. }
    destruct Hres as [[-> _]|(-> & psf & Hpsf & Hout & Hin)];
      [by eapply walk_mono|].
    assert (∀ k, child hf (VRef c) k = assoc k psf) as Hown.
    { intros k. unfold child, own_props.
      by rewrite (Hpres _ _ (or_intror (le_n _)) Hpsf). }
    inversion Hun as [? k rest Hk|? k sub rest Hk Hsub]; simplify_eq; simpl in *.
    + destruct (child h0 orig k) as [y|] eqn:Ey; [|done].
      rewrite Hown, (Hout _ Hk). unfold ps.
      rewrite (assoc_clone _ _ _ h0_ok), Ey. by eapply walk_mono.
    + destruct (child h0 orig k) as [y|] eqn:Ey; [|done].
      destruct (Hin _ _ _ Hk Ey) as (r & Hr & Hshared).
      rewrite Hown, Hr.
      apply (Hshared rest x hf Hsub Hwalk).
      intros l o Hl. apply Hpres. unfold c in Hl. lia.
Qed.

End Sharing.

(** C1. Whatever [apply()] returns has, at every path that leaves the
    shape of the selector, the very value the original has there: for an
    object or an array, the same reference, to an object that has not
    changed. *)
Theorem structural_sharing callback s h res h' path x :
  pure_callbacks callback →
  heap_ok h →
  val_ok (List.length h) (_originalObject s) →
  valid_selector (selector_ s) →
  apply callback s h = (Ret res, h') →
  unselected (selector_ s) path →
  walk h (_originalObject s) path = Some x →
  walk h' res path = Some x
  ∧ ∀ l o, x = VRef l → h !! l = Some o → h' !! l = Some o.
Proof.
  intros Hpure Hok Horig Hvalid Hrun Hun Hwalk. split.
  - eapply (selectTransform_shares callback Hpure (toUpdate s) h Hok (selector_ s)
              Hvalid _ h res h' (extends_refl h) Horig Hrun path x h' Hun Hwalk).
    by intros l o _.
  - intros l o _. by eapply selectTransform_grows.
Qed.

Lemma ab_heap_ok : heap_ok ab_heap.
Proof. by apply (bool_decide_unpack _). Qed.

Lemma ab_selector_valid : valid_selector ab_selector.
Proof.
  unfold ab_selector.
  repeat first [ apply valid_marker | apply valid_mapping | apply NoDup_singleton
               | apply Forall_cons_2 | apply Forall_nil_2 ].
Qed.

(** In [{a: {x: 1}, b: {y: 2}}] with selector [{a: {x: '#'}}], the result
    of [.set(9).apply()] has at [b] the object at address 1 itself. *)
Lemma structural_sharing_witness :
  ∃ res h',
    apply demo_callback ab_session ab_heap = (Ret res, h')
    ∧ walk ab_heap ab_object ["b"] = Some (VRef 1)
    ∧ walk h' res ["b"] = Some (VRef 1).
Proof.
  eexists _, _. split; [vm_compute; reflexivity|]. split; [reflexivity|].
  apply (structural_sharing demo_callback ab_session ab_heap (VRef 3) _ ["b"] (VRef 1)).
  - exact demo_callback_pure.
  - exact ab_heap_ok.
  - simpl. lia.
  - exact ab_selector_valid.
  - vm_compute. reflexivity.
  - apply unselected_here. simpl. by intros ?%list_elem_of_singleton.
  - reflexivity.
Defined.

(** ** Branches: returning, aborting, cloning *)

Lemma reads_ext ps ps' k : assoc k ps = assoc k ps' → reads ps k = reads ps' k.
Proof. unfold reads. by intros ->. Qed.


Lemma reads_clone h v k :
  heap_ok h → reads (assign_props [] (own_props h v)) k = reads (own_props h v) k.
Proof. intros Hok. apply reads_ext. by rewrite assoc_clone. Qed.

Lemma reads_child_ok h v k : heap_ok h → val_ok (List.length h) (reads (own_props h v) k).
Proof.
  intros Hok. unfold reads. destruct (assoc k (own_props h v)) as [x|] eqn:E.
  - by apply (child_ok h v k).
  - by destruct (member k Object_prototype).
Qed.

Lemma index_key_not_proto i : index_key i ≠ "__proto__".
Proof.
  unfold index_key. intros H.
  pose proof (NilEmpty.usu (Nat.to_uint i)) as E. rewrite H in E. done.
Qed.

Lemma indexed_plain es : assoc "__proto__" (indexed es) = None.
Proof.
  apply assoc_None. unfold indexed. intros (kv & Hk & Hin)%list_elem_of_fmap.
  apply elem_of_lookup_imap in Hin as (i & e & -> & _).
  by apply (index_key_not_proto i).
Qed.

(** In a store without own [__proto__] properties every value is cloned
    as [Object.assign] is modelled, also later on, when the store has
    grown. *)
Lemma own_props_plain h0 hm v :
  no_proto_key h0 →
  extends h0 hm →
  val_ok (List.length h0) v →
  assoc "__proto__" (own_props hm v) = None.
Proof.
  intros Hplain Hext Hv. rewrite (extends_own_props _ _ _ Hext Hv).
  unfold own_props. destruct v as [| | | |s| |l]; try done.
  - apply indexed_plain.
  - destruct (h0 !! l) as [[ps|es]|] eqn:E; [|apply indexed_plain|done].
    apply assoc_None. eapply Forall_lookup_1 in Hplain; [|exact E]. done.
Qed.

(** An operation returns or passes on the error of the user function. *)
Lemma operation_settled callback op old payload h o h' :
  operationalMapper callback op old payload h = (o, h') →
  (∃ r, o = Ret r) ∨ o = Throw CallbackError.
Proof.
  destruct (decide (op = OpPipe)) as [->|Hop].
  - simpl. rewrite pipe_unfold. destruct (negb _ || nullish old) eqn:E.
    { intros [= <- _]. left. eauto. }
    destruct payload; try (by vm_compute in E). unfold invoke.
    destruct (callback f old h) as [[r|] h1]; intros [= <- _]; [left; eauto|by right].
  - destruct (builtin_operation_returns callback op old payload h Hop) as (v & h1 & ->).
    intros [= <- _]. left. eauto.
Qed.

Section Outcomes.

Variable callback : fid → val → heap → option val * heap.
Hypothesis callback_pure : pure_callbacks callback.
Variable led : gmap string updater.



(** [h0] is the store in which the original object was given. *)
Variable h0 : heap.
Hypothesis h0_ok : heap_ok h0.
Hypothesis h0_plain : no_proto_key h0.

(** One turn of the loop, on a clone [c] made after [h0] that still holds,
    at the keys to come, what the original has there. *)
Lemma traverse_step orig c key sub rest hs ps :
  key ∉ rest.*1 →
  key ≠ "__proto__" →
  List.length h0 ≤ c →
  extends h0 hs →
  hs !! c = Some (OObj ps) →
  (∀ k, k ∈ ((key, sub) :: rest).*1 → assoc k ps = child h0 orig k) →
  val_ok (List.length h0) (reads (own_props h0 orig) key)
  ∧ traverse (selectTransform callback led) orig c ((key, sub) :: rest) hs
    = (if nullish (reads (own_props h0 orig) key) then (Ret orig, hs)
       else match selectTransform callback led sub (reads (own_props h0 orig) key) hs with
            | (Ret r, h1) =>
                traverse (selectTransform callback led) orig c rest
                  (<[c := OObj (define_prop key r ps)]> h1)
            | (Throw e, h1) => (Throw e, h1)
            | (Stuck, h1) => (Stuck, h1)
            end)
  ∧ ∀ r h1,
      selectTransform callback led sub (reads (own_props h0 orig) key) hs = (Ret r, h1) →
      extends h0 (<[c := OObj (define_prop key r ps)]> h1)
      ∧ (<[c := OObj (define_prop key r ps)]> h1) !! c
        = Some (OObj (define_prop key r ps))
      ∧ (∀ k, k ∈ rest.*1 → assoc k (define_prop key r ps) = child h0 orig k).
Proof.
  intros Hkey Hproto Hc Hext Hcell Hps.
  split; [by apply reads_child_ok|].
  assert (reads ps key = reads (own_props h0 orig) key) as Hx.
  { apply reads_ext, Hps. simpl. apply list_elem_of_here. }
  split.
  - rewrite (traverse_cons _ _ _ _ _ _ _ _ Hcell Hproto), Hx.
    destruct (nullish _); [done|].
    destruct (selectTransform callback led sub _ hs) as [[r|e|] h1] eqn:Erec; try done.
    pose proof (selectTransform_grows _ callback_pure _ _ _ _ _ _ Erec) as Hgrow.
    by rewrite (put_ok _ _ _ _ _ (Hgrow _ _ Hcell) Hproto).
  - intros r h1 Erec.
    pose proof (selectTransform_grows _ callback_pure _ _ _ _ _ _ Erec) as Hgrow.
    assert (c < List.length h1) as Hlt by (by eapply lookup_lt_Some, Hgrow).
    split; [|split].
    + intros l o Hl.
      rewrite list_lookup_insert_ne by (apply lookup_lt_Some in Hl; lia).
      by apply Hgrow, Hext.
    + by apply list_lookup_insert_eq.
    + intros k Hk. rewrite assoc_define_prop.
      rewrite decide_False; [|by intros ->].
      apply Hps. simpl. by apply list_elem_of_further.
Qed.

(** The start of the loop: the clone is made, at the end of the store. *)
Lemma traverse_start kids orig hm :
  extends h0 hm →
  val_ok (List.length h0) orig →
  selectTransform callback led (Mapping kids) orig hm
  = traverse (selectTransform callback led) orig (List.length hm) kids
      (hm ++ [OObj (assign_props [] (own_props h0 orig))])
  ∧ List.length h0 ≤ List.length hm
  ∧ extends h0 (hm ++ [OObj (assign_props [] (own_props h0 orig))])
  ∧ (∀ k, k ∈ kids.*1 →
          assoc k (assign_props [] (own_props h0 orig)) = child h0 orig k).
Proof.
  intros Hext Horig. split; [|split; [|split]].
  - rewrite selectTransform_Mapping, (own_props_plain h0 hm orig) by done.
    by rewrite (extends_own_props _ _ _ Hext Horig).
  - by apply extends_length.
  - intros l o Hl. apply lookup_app_l_Some. by apply Hext.
  - intros k _. by apply assoc_clone.
Qed.



Hypothesis callback_total : total_callbacks callback.
Hypothesis led_nonempty : led ≠ ∅.

Lemma traverse_returns orig c kids :
  Forall (λ kv, ∀ v h,
            extends h0 h → val_ok (List.length h0) v →
            ∃ r h', selectTransform callback led kv.2 v h = (Ret r, h')) kids →
  NoDup kids.*1 →
  "__proto__" ∉ kids.*1 →
  List.length h0 ≤ c →
  ∀ hs ps,
    extends h0 hs →
    hs !! c = Some (OObj ps) →
    (∀ k, k ∈ kids.*1 → assoc k ps = child h0 orig k) →
    ∃ r h', traverse (selectTransform callback led) orig c kids hs = (Ret r, h').
Proof.
  intros Hall Hnd Hproto Hc. revert Hnd Hproto.
  induction Hall as [|[key sub] rest Hsub _ IH];
    intros Hnd Hproto hs ps Hext Hcell Hps.
  - simpl. unfold ret. eauto.
  - simpl in Hnd. apply NoDup_cons in Hnd as [Hkey Hnd].
    simpl in Hproto. apply not_elem_of_cons in Hproto as [Hne Hproto].
    destruct (traverse_step orig c key sub rest hs ps Hkey (not_eq_sym Hne) Hc
                Hext Hcell Hps) as (Hx & -> & Hnext).
    destruct (nullish _); [eauto|].
    destruct (Hsub _ hs Hext Hx) as (r & h1 & Erec). simpl in Erec. rewrite Erec.
    destruct (Hnext r h1 Erec) as (Hext2 & Hcell2 & Hps2).
    by apply (IH Hnd Hproto _ _ Hext2 Hcell2 Hps2).
Qed.

Lemma selectTransform_returns sel :
  regular_selector sel →
  ∀ orig h,
    extends h0 h → val_ok (List.length h0) orig →
    ∃ r h', selectTransform callback led sel orig h = (Ret r, h').
Proof.
  induction sel as [tag|kids IH|s| |] using selector_induction;
    intros Hreg orig h Hext Horig; [| |inversion Hreg..].
  - simpl. rewrite resolve_unfold, bool_decide_eq_false_2 by done.
    destruct (led !! slot (marker_id tag)); [by apply operation_returns|].
    unfold ret. eauto.
  - inversion Hreg as [|? Hnd Hproto Hkids]; subst.
    destruct (traverse_start kids orig h Hext Horig) as (-> & Hlen & Hext1 & Hps).
    refine (traverse_returns orig (List.length h) kids _ Hnd Hproto Hlen _ _
              Hext1 (lookup_new_cell _ _) Hps).
    apply Forall_forall. intros kv Hkv.
    eapply Forall_forall in IH; [|exact Hkv].
    eapply Forall_forall in Hkids; [|exact Hkv]. by apply IH.
Qed.


End Outcomes.

(** ** The 'operation required' error *)

Lemma operation_not_required callback op old payload h :
  (operationalMapper callback op old payload h).1 ≠ Throw OperationRequired.
Proof.
  destruct (operationalMapper callback op old payload h) as [o h'] eqn:E.
  apply operation_settled in E as [[r ->]| ->]; done.
Qed.

Lemma resolve_not_required callback led p orig h :
  led ≠ ∅ → (resolve callback led p orig h).1 ≠ Throw OperationRequired.
Proof.
  intros Hled. rewrite resolve_unfold, bool_decide_eq_false_2 by done.
  destruct (led !! slot p); [apply operation_not_required|done].
Qed.

Lemma traverse_not_required recur orig c kids :
  Forall (λ kv, ∀ v h, (recur kv.2 v h).1 ≠ Throw OperationRequired) kids →
  ∀ h, (traverse recur orig c kids h).1 ≠ Throw OperationRequired.
Proof.
  induction 1 as [|[key sub] rest Hsub _ IH]; intros h; [done|].
  simpl. unfold bind, fetch, put, ret.
  destruct (h !! c) as [[ps|es]|]; try done.
  destruct (decide (key = "__proto__")); [done|].
  destruct (nullish (reads ps key)); [done|].
  pose proof (Hsub (reads ps key) h) as Hrec. simpl in Hrec.
  destruct (recur sub (reads ps key) h) as [[r|e|] h1]; [|done|done].
  destruct (h1 !! c) as [[ps1|es1]|]; first [done | apply IH].
Qed.

Lemma selectText_not_required callback led depth :
  led ≠ ∅ →
  ∀ s orig h, (selectText callback led depth s orig h).1 ≠ Throw OperationRequired.
Proof.
  intros Hled. induction depth as [|d IH]; intros s orig h; [done|].
  rewrite selectText_S. destruct (assoc _ _); [done|].
  apply traverse_not_required.
  apply Forall_forall. intros [k sub] _ v h1. simpl.
  destruct sub; first [by apply resolve_not_required | apply IH | done].
Qed.

Lemma selectTransform_not_required callback led sel :
  led ≠ ∅ →
  ∀ orig h, (selectTransform callback led sel orig h).1 ≠ Throw OperationRequired.
Proof.
  intros Hled. induction sel as [tag|kids IH|s| |] using selector_induction; intros orig h.
  - simpl. by apply resolve_not_required.
  - rewrite selectTransform_Mapping. destruct (assoc _ _); [done|].
    by apply traverse_not_required.
  - rewrite selectTransform_Text. destruct (startsWith s "#");
      [by apply resolve_not_required|].
    unfold bind, read. by apply selectText_not_required.
  - simpl. unfold bind, clone, Object_assign_new, new. by destruct (assoc _ _).
  - simpl. unfold clone, Object_assign_new, new. by destruct (assoc _ _).
Qed.

(** With nothing recorded no user function is called, so the store grows
    whatever the user functions are. *)
Lemma selectTransform_grows_empty callback sel :
  ∀ orig, grows (selectTransform callback ∅ sel orig).
Proof.
  apply selectTransform_grows_gen. intros p v.
  rewrite resolve_unfold. apply grows_throw.
Qed.

Lemma reaches_marker_cons h key sub rest v :
  reaches_marker h (Mapping ((key, sub) :: rest)) v
  = if nullish (reads (own_props h v) key) then false
    else reaches_marker h sub (reads (own_props h v) key)
         || reaches_marker h (Mapping rest) v.
Proof. done. Qed.

Section Empty.

Variable callback : fid → val → heap → option val * heap.
Variable h0 : heap.
Hypothesis h0_ok : heap_ok h0.
Hypothesis h0_plain : no_proto_key h0.

Lemma traverse_empty orig c kids :
  Forall (λ kv, empty_run callback h0 kv.2) kids →
  Forall (λ kv, regular_selector kv.2) kids →
  NoDup kids.*1 →
  "__proto__" ∉ kids.*1 →
  List.length h0 ≤ c →
  ∀ hs ps,
    extends h0 hs →
    hs !! c = Some (OObj ps) →
    (∀ k, k ∈ kids.*1 → assoc k ps = child h0 orig k) →
    ∃ o hf,
      traverse (selectTransform callback ∅) orig c kids hs = (o, hf)
      ∧ if reaches_marker h0 (Mapping kids) orig then o = Throw OperationRequired
        else ∃ r, o = Ret r.
Proof.
  intros Hall Hvalid Hnd Hproto Hc. revert Hvalid Hnd Hproto.
  induction Hall as [|[key sub] rest Hsub _ IH];
    intros Hvalid Hnd Hproto hs ps Hext Hcell Hps.
  - simpl. unfold ret. eauto.
  - apply Forall_cons in Hvalid as [Hvsub Hvalid].
    simpl in Hnd. apply NoDup_cons in Hnd as [Hkey Hnd].
    simpl in Hproto. apply not_elem_of_cons in Hproto as [Hne Hproto].
    rewrite (traverse_cons _ _ _ _ _ _ _ _ Hcell) by done.
    rewrite reaches_marker_cons.
    assert (reads ps key = reads (own_props h0 orig) key) as ->.
    { apply reads_ext, Hps. simpl. apply list_elem_of_here. }
    set (x := reads (own_props h0 orig) key).
    destruct (nullish x) eqn:Enull; [eauto|].
    destruct (Hsub Hvsub x hs Hext (reads_child_ok _ _ _ h0_ok)) as (o1 & h1 & Erec & Hout).
    simpl in Erec. rewrite Erec.
    pose proof (selectTransform_grows_empty _ _ _ _ _ _ Erec) as Hgrow.
    destruct (reaches_marker h0 sub x) eqn:Ereach; simpl.
    { assert (o1 = Throw OperationRequired) as ->; [|eauto].
      simpl in Hout. fold x in Hout. by rewrite Ereach in Hout. }
    assert (∃ r, o1 = Ret r) as [r ->].
    { simpl in Hout. fold x in Hout. by rewrite Ereach in Hout. }
    rewrite (put_ok _ _ _ _ _ (Hgrow _ _ Hcell)) by done.
    assert (c < List.length h1) as Hlt by (by eapply lookup_lt_Some, Hgrow).
    apply (IH Hvalid Hnd Hproto _ (define_prop key r ps)).
    + intros l o Hl.
      rewrite list_lookup_insert_ne by (apply lookup_lt_Some in Hl; lia).
      by apply Hgrow, Hext.
    + by apply list_lookup_insert_eq.
    + intros k Hk. rewrite assoc_define_prop.
      rewrite decide_False; [|by intros ->].
      apply Hps. simpl. by apply list_elem_of_further.
Qed.

Lemma selectTransform_empty sel : empty_run callback h0 sel.
Proof.
  induction sel as [tag|kids IH|s| |] using selector_induction;
    intros Hreg orig hm Hext Horig; [| |inversion Hreg..].
  - simpl. rewrite resolve_unfold. unfold throw. eauto.
  - inversion Hreg as [|? Hnd Hproto Hkids]; subst.
    rewrite selectTransform_Mapping, (own_props_plain h0 hm orig) by done.
    rewrite (extends_own_props _ _ _ Hext Horig).
    apply (traverse_empty orig (List.length hm) kids IH Hkids Hnd Hproto
             (extends_length _ _ Hext) _ (assign_props [] (own_props h0 orig))).
    + intros l o Hl. apply lookup_app_l_Some. by apply Hext.
    + apply lookup_new_cell.
    + intros k _. by apply assoc_clone.
Qed.

End Empty.

(** ** The three claims on branches and on the error *)



Lemma ab_heap_no_proto_key : no_proto_key ab_heap.
Proof. by apply (bool_decide_unpack _). Qed.


(** The array [[1, 2]] under the selector [{0: '#'}] with [.set(9)]: the
    result is the plain object [{0: 9, 1: 2}], not an array. *)
Lemma clone_keeps_kind_fails :
  selectTransform demo_callback (toUpdate ab_session) (Mapping [("0", Marker "")])
    (VRef 0) list_heap
  = (Ret (VRef 1), list_heap ++ [OObj [("0", VNum 9); ("1", VNum 2)]])
  ∧ isArray list_heap (VRef 0) = true
  ∧ ¬ clone_keeps_kind demo_callback (toUpdate ab_session)
        [("0", Marker "")] (VRef 0) list_heap.
Proof.
  split; [reflexivity|]. split; [reflexivity|].
  intros H.
  specialize (H (VRef 1) (list_heap ++ [OObj [("0", VNum 9); ("1", VNum 2)]])).
  discriminate H. reflexivity.
Qed.

(** C8 (amended). In a store whose objects have no own property
    [__proto__]: where the selector node is a mapping all of whose keys
    have a child in the node, the result is a new plain object (also when
    the node is an array or a string, whose positions become keys) that
    has the same keys as the node and, at every key outside the mapping,
    the very child that the node has. *)
Theorem branch_clone_shape callback led kids orig h res h' :
  pure_callbacks callback →
  heap_ok h →
  no_proto_key h →
  val_ok (List.length h) orig →
  valid_selector (Mapping kids) →
  (∀ k, k ∈ kids.*1 → nullish (default VUndef (child h orig k)) = false) →
  selectTransform callback led (Mapping kids) orig h = (Ret res, h') →
  res = VRef (List.length h)
  ∧ h !! List.length h = None
  ∧ ∃ ps, h' !! List.length h = Some (OObj ps)
      ∧ (∀ k, is_Some (assoc k ps) ↔ is_Some (child h orig k))
      ∧ (∀ k, k ∉ kids.*1 → assoc k ps = child h orig k).
Proof.
  intros Hpure Hok Hplain Horig Hvalid Hpresent Hrun.
  inversion Hvalid as [|? Hnd Hkids]; subst.
  rewrite selectTransform_Mapping in Hrun.
  rewrite (own_props_plain h h orig Hplain (extends_refl h) Horig) in Hrun.
  set (ps0 := assign_props [] (own_props h orig)) in *.
  assert (extends h (h ++ [OObj ps0])) as Hext1 by apply extends_app.
  assert (∀ k, k ∈ kids.*1 → assoc k ps0 = child h orig k) as Hps0.
  { intros k _. by apply assoc_clone. }
  assert (Forall (λ kv, shares callback led h kv.2) kids) as Hsh.
  { apply Forall_forall. intros kv _. by apply selectTransform_shares. }
  destruct (traverse_shares callback Hpure led h Hok orig (List.length h) kids
              Hsh Hkids Hnd (le_n _) _ ps0 res h' Hext1 (lookup_new_cell _ _)
              Hps0 Hrun)
    as [(_ & k & Hk & Hnull)|(-> & ps & Hps & Hout & Hin)].
  { rewrite (Hpresent _ Hk) in Hnull. done. }
  split; [done|]. split; [by apply lookup_ge_None|].
  exists ps. split; [done|]. split.
  - intros k. destruct (decide (k ∈ kids.*1)) as [Hk|Hk].
    + pose proof (Hpresent _ Hk) as Hnn.
      destruct (child h orig k) as [x|] eqn:Ex; [|done].
      apply list_elem_of_fmap in Hk as ([k' sub] & -> & Hk). simpl in *.
      destruct (Hin _ _ _ Hk Ex) as (r & -> & _). split; eauto.
    + rewrite (Hout _ Hk). unfold ps0. by rewrite assoc_clone.
  - intros k Hk. rewrite (Hout _ Hk). unfold ps0. by rewrite assoc_clone.
Qed.

(** [{a: {x: 1}, b: {y: 2}}] under [{a: {x: '#'}}] with [.set(9)]: the
    result is a new object at address 3 whose [b] is the object at 1. *)
Lemma branch_clone_shape_witness :
  ∃ ps, (apply demo_callback ab_session ab_heap).2 !! 3 = Some (OObj ps)
        ∧ (∀ k, is_Some (assoc k ps) ↔ is_Some (child ab_heap ab_object k))
        ∧ (∀ k, k ∉ ["a"] → assoc k ps = child ab_heap ab_object k).
Proof.
  apply (branch_clone_shape demo_callback (toUpdate ab_session)
           [("a", Mapping [("x", Marker "")])] ab_object ab_heap (VRef 3)
           (apply demo_callback ab_session ab_heap).2).
  - exact demo_callback_pure.
  - exact ab_heap_ok.
  - exact ab_heap_no_proto_key.
  - simpl. lia.
  - exact ab_selector_valid.
  - intros k Hk. simpl in Hk. apply list_elem_of_singleton in Hk. by subst.
  - vm_compute. reflexivity.
Defined.

(** C5. For a selector whose leaves are all pointer markers, in a store
    whose objects have no own property [__proto__]: [apply()] raises
    'operation required' exactly when nothing has been recorded and the
    traversal comes to a pointer marker (a key that the node inherits from
    [Object.prototype] is followed like an own one); once something has
    been recorded, a marker whose slot is empty gives back the value of the
    leaf, unchanged and without an error. *)
Theorem operation_required_exactly callback s h :
  heap_ok h →
  no_proto_key h →
  val_ok (List.length h) (_originalObject s) →
  regular_selector (selector_ s) →
  ((apply callback s h).1 = Throw OperationRequired
   ↔ toUpdate s = ∅ ∧ reaches_marker h (selector_ s) (_originalObject s) = true)
  ∧ (∀ tag orig,
       toUpdate s ≠ ∅ →
       toUpdate s !! slot (marker_id tag) = None →
       selectTransform callback (toUpdate s) (Marker tag) orig h = (Ret orig, h)).
Proof.
  intros Hok Hplain Horig Hreg. split.
  - unfold apply. destruct (decide (toUpdate s = ∅)) as [E|E].
    + rewrite E.
      destruct (selectTransform_empty callback h Hok Hplain (selector_ s) Hreg
                  (_originalObject s) h (extends_refl h) Horig)
        as (o & h' & -> & Hout). simpl.
      destruct (reaches_marker h (selector_ s) (_originalObject s)).
      * subst o. by split.
      * destruct Hout as [r ->]. split; [done|]. by intros [_ ?].
    + split; [|by intros [? _]].
      intros H. by apply selectTransform_not_required in H.
  - intros tag orig Hled Hnone. simpl.
    rewrite resolve_unfold, bool_decide_eq_false_2 by done. by rewrite Hnone.
Qed.

(** The example of the specification: selector [{p: '#'}], object
    [{p: 5}], no operation recorded; and the selector [{constructor: '#'}]
    on the object [{}], whose [constructor] is inherited. *)
Lemma operation_required_exactly_witness :
  (apply demo_callback (Session (VRef 0) (Mapping [("p", Marker "")]) ∅ "#")
     [OObj [("p", VNum 5)]]).1 = Throw OperationRequired
  ∧ (apply demo_callback (Session (VRef 0) (Mapping [("constructor", Marker "")]) ∅ "#")
       [OObj []]).1 = Throw OperationRequired.
Proof.
  split.
  - apply (operation_required_exactly demo_callback
             (Session (VRef 0) (Mapping [("p", Marker "")]) ∅ "#")
             [OObj [("p", VNum 5)]]).
    + by apply (bool_decide_unpack _).
    + by apply (bool_decide_unpack _).
    + simpl. lia.
    + apply regular_mapping;
        [by apply (bool_decide_unpack _) | by apply (bool_decide_unpack _) |].
      apply Forall_cons_2; [apply regular_marker|apply Forall_nil_2].
    + split; reflexivity.
  - apply (operation_required_exactly demo_callback
             (Session (VRef 0) (Mapping [("constructor", Marker "")]) ∅ "#")
             [OObj []]).
    + by apply (bool_decide_unpack _).
    + by apply (bool_decide_unpack _).
    + simpl. lia.
    + apply regular_mapping;
        [by apply (bool_decide_unpack _) | by apply (bool_decide_unpack _) |].
      apply Forall_cons_2; [apply regular_marker|apply Forall_nil_2].
    + split; reflexivity.
Defined.

(** * Further properties of the code *)

(** ** What a selected leaf holds in the result *)

Lemma preserved_weaken (P Q : loc → Prop) h h' :
  (∀ l, P l → Q l) → preserved Q h h' → preserved P h h'.
Proof. intros HPQ H l o Hl. by apply H, HPQ. Qed.

Section Updates.

Variable callback : fid → val → heap → option val * heap.
Hypothesis callback_pure : pure_callbacks callback.
Variable led : gmap string updater.
Variable h0 : heap.
Hypothesis h0_ok : heap_ok h0.

(** A loop over keys that all have a child ends with the clone, which then
    holds, at each key, what the recursive call on that child returned. *)
Lemma traverse_runs orig c kids :
  NoDup kids.*1 →
  List.length h0 ≤ c →
  ∀ hs ps res hf,
    extends h0 hs →
    hs !! c = Some (OObj ps) →
    (∀ k, k ∈ kids.*1 → assoc k ps = child h0 orig k) →
    (∀ k, k ∈ kids.*1 → nullish (default VUndef (child h0 orig k)) = false) →
    traverse (selectTransform callback led) orig c kids hs = (Ret res, hf) →
    res = VRef c
    ∧ preserved (λ l, l ≠ c) hs hf
    ∧ ∃ psf, hf !! c = Some (OObj psf)
        ∧ (∀ k, k ∉ kids.*1 → assoc k psf = assoc k ps)
        ∧ (∀ k sub x, (k, sub) ∈ kids → child h0 orig k = Some x →
             ∃ r hs' hs1,
               extends h0 hs'
               ∧ c < List.length hs'
               ∧ selectTransform callback led sub x hs' = (Ret r, hs1)
               ∧ assoc k psf = Some r
               ∧ preserved (λ l, l ≠ c) hs1 hf).
Proof.
  intros Hnd Hc. revert Hnd.
  induction kids as [|[key sub] rest IH]; intros Hnd hs ps res hf Hext Hcell Hps Hpresent.
  - intros [= <- <-]. split; [done|]. split; [by intros l o _|].
    exists ps. split; [done|]. split; [done|]. by intros k sub x ?%elem_of_nil.
  - simpl in Hnd. apply NoDup_cons in Hnd as [Hkey Hnd].
    destruct (decide (key = "__proto__")) as [->|Hproto].
    { by rewrite (traverse_proto _ _ _ _ _ _ _ Hcell). }
    rewrite (traverse_cons _ _ _ _ _ _ _ _ Hcell Hproto).
    assert (assoc key ps = child h0 orig key) as Hkeyps
      by (apply Hps; simpl; apply list_elem_of_here).
    assert (nullish (default VUndef (child h0 orig key)) = false) as Hnn
      by (apply Hpresent; simpl; apply list_elem_of_here).
    destruct (child h0 orig key) as [x|] eqn:Hx; [|done]. simpl in Hnn.
    rewrite (reads_own _ _ _ Hkeyps), Hnn.
    destruct (selectTransform callback led sub x hs) as [[r|e|] h1] eqn:Erec; [|done|done].
    pose proof (selectTransform_grows _ callback_pure _ _ _ _ _ _ Erec) as Hgrow.
    rewrite (put_ok _ _ _ _ _ (Hgrow _ _ Hcell) Hproto).
    set (ps2 := define_prop key r ps). set (h2 := <[c := OObj ps2]> h1).
    assert (c < List.length hs) as Hlt by (by eapply lookup_lt_Some).
    assert (c < List.length h1) as Hlt1 by (by eapply lookup_lt_Some, Hgrow).
    intros Hrest.
    assert (extends h0 h2) as Hext2.
    { intros l o Hl. unfold h2.
      rewrite list_lookup_insert_ne by (apply lookup_lt_Some in Hl; lia).
      by apply Hgrow, Hext. }
    assert (h2 !! c = Some (OObj ps2)) as Hcell2
      by (by apply list_lookup_insert_eq).
    assert (∀ k, k ∈ rest.*1 → assoc k ps2 = child h0 orig k) as Hps2.
    { intros k Hk. unfold ps2. rewrite assoc_define_prop.
      rewrite decide_False; [|by intros ->].
      apply Hps. simpl. by apply list_elem_of_further. }
    assert (∀ k, k ∈ rest.*1 → nullish (default VUndef (child h0 orig k)) = false)
      as Hpresent2.
    { intros k Hk. apply Hpresent. simpl. by apply list_elem_of_further. }
    destruct (IH Hnd h2 ps2 res hf Hext2 Hcell2 Hps2 Hpresent2 Hrest)
      as (-> & Hframe & psf & Hpsf & Hout & Hin).
    split; [done|]. split.
    { eapply preserved_trans; [apply extends_preserved, Hgrow|].
      eapply preserved_trans; [apply preserved_insert|done]. }
    exists psf. split; [done|]. split.
    + intros k Hk. apply not_elem_of_cons in Hk as [Hne Hk].
      rewrite (Hout _ Hk). unfold ps2. rewrite assoc_define_prop.
      by rewrite decide_False.
    + intros k sub' x' Hk Hx'. apply elem_of_cons in Hk as [[= -> ->]|Hk].
      * assert (x' = x) as -> by congruence.
        exists r, hs, h1. split; [done|]. split; [done|]. split; [done|]. split.
        -- rewrite (Hout _ Hkey). unfold ps2. rewrite assoc_define_prop.
           by rewrite decide_True.
        -- eapply preserved_trans; [apply preserved_insert|done].
      * by eapply Hin.
Qed.

(** The leaf step of a selected path was run in some store [hop] that
    holds the objects of [h0] unchanged; what it returned is at the path
    in the result, and what it allocated is unchanged at the end. *)
Lemma selectTransform_updates sel orig path tag y :
  selects h0 sel orig path tag y →
  valid_selector sel →
  val_ok (List.length h0) orig →
  ∀ hm res hm',
    extends h0 hm →
    selectTransform callback led sel orig hm = (Ret res, hm') →
    ∃ hop hop' r,
      extends h0 hop
      ∧ List.length hm ≤ List.length hop
      ∧ selectTransform callback led (Marker tag) y hop = (Ret r, hop')
      ∧ preserved (λ l, l < List.length h0 ∨ List.length hop ≤ l) hop' hm'
      ∧ ∀ hf, preserved (λ l, List.length hm ≤ l) hm' hf → walk hf res path = Some r.
Proof.
  induction 1 as [tag v|kids v k sub x rest tag y Hpresent Hk Hx Hsel IH];
    intros Hvalid Hv hm res hm' Hext Hrun.
  - exists hm, hm', res. split; [done|]. split; [done|]. split; [done|].
    split; [by intros l o _|done].
  - inversion Hvalid as [|? Hnd Hkids]; subst.
    rewrite selectTransform_Mapping in Hrun.
    rewrite (extends_own_props _ _ _ Hext Hv) in Hrun.
    destruct (assoc "__proto__" (own_props h0 v)); [done|].
    pose proof (extends_length _ _ Hext) as Hlen.
    set (c := List.length hm) in *.
    set (ps := assign_props [] (own_props h0 v)) in *.
    assert (extends h0 (hm ++ [OObj ps])) as Hext1.
    { intros l o Hl. apply lookup_app_l_Some. by apply Hext. }
    assert (∀ k, k ∈ kids.*1 → assoc k ps = child h0 v k) as Hps.
    { intros k' _. by apply assoc_clone. }
    destruct (traverse_runs v c kids Hnd Hlen _ ps res hm' Hext1
                (lookup_new_cell _ _) Hps Hpresent Hrun)
      as (-> & _ & psf & Hpsf & _ & Hin).
    destruct (Hin _ _ _ Hk Hx) as (r1 & hs' & hs1 & Hext' & Hc' & Hrec & Hr1 & Hframe).
    assert (valid_selector sub) as Hvsub.
    { eapply Forall_forall in Hkids; [|exact Hk]. done. }
    destruct (IH Hvsub (child_ok _ _ _ _ h0_ok Hx) hs' r1 hs1 Hext' Hrec)
      as (hop & hop' & r & Hhop & Hlenhop & Hleaf & Hkeep & Hwalk).
    exists hop, hop', r. split; [done|]. split; [lia|]. split; [done|]. split.
    { eapply preserved_trans; [exact Hkeep|].
      eapply preserved_weaken; [|exact Hframe]. simpl. lia. }
    intros hf Hpres. simpl.
    assert (child hf (VRef c) k = Some r1) as ->.
    { unfold child, own_props. by rewrite (Hpres _ _ (le_n _) Hpsf). }
    apply Hwalk. intros l o Hl Hlook. apply Hpres; [lia|].
    apply Hframe; [lia|done].
Qed.

End Updates.

(** X1. In a store whose objects have no own property [__proto__], along
    a selected path on which no mapping misses a child, the result of
    [apply()] holds exactly what the leaf step returned for the old value
    of the leaf: the recorded operation applied to it, or the old value
    when the pointer of the marker has no entry.  The leaf step ran in a
    store [hop] in which every object given to [apply()] was unchanged, and
    whatever it allocated is unchanged when [apply()] returns.  An abort
    inside another branch does not undo it. *)
Theorem selected_leaf_result callback s h res h' path tag y :
  pure_callbacks callback →
  heap_ok h →
  no_proto_key h →
  val_ok (List.length h) (_originalObject s) →
  valid_selector (selector_ s) →
  selects h (selector_ s) (_originalObject s) path tag y →
  apply callback s h = (Ret res, h') →
  ∃ hop hop' r,
    extends h hop
    ∧ selectTransform callback (toUpdate s) (Marker tag) y hop = (Ret r, hop')
    ∧ preserved (λ l, l < List.length h ∨ List.length hop ≤ l) hop' h'
    ∧ walk h' res path = Some r.
Proof.
  intros Hpure Hok _ Hv Hvalid Hsel Hrun.
  destruct (selectTransform_updates callback Hpure (toUpdate s) h Hok _ _ _ _ _
              Hsel Hvalid Hv h res h' (extends_refl h) Hrun)
    as (hop & hop' & r & Hhop & _ & Hleaf & Hkeep & Hwalk).
  exists hop, hop', r. split; [done|]. split; [done|]. split; [done|].
  apply Hwalk. by intros l o _.
Qed.

(** X2. Writing then reading: after [set(v)] with a value that is neither
    null nor undefined, the result of [apply()] holds [v] at every selected
    path whose marker is the pointer the value was recorded under. *)
Theorem set_then_read callback s h res h' path tag y v :
  pure_callbacks callback →
  heap_ok h →
  val_ok (List.length h) (_originalObject s) →
  valid_selector (selector_ s) →
  selects h (selector_ s) (_originalObject s) path tag y →
  toUpdate s !! slot (marker_id tag) = Some (Updater v OpSet) →
  nullish v = false →
  apply callback s h = (Ret res, h') →
  walk h' res path = Some v.
Proof.
  intros Hpure Hok Hv Hvalid Hsel Hentry Hnn Hrun.
  destruct (selectTransform_updates callback Hpure (toUpdate s) h Hok _ _ _ _ _
              Hsel Hvalid Hv h res h' (extends_refl h) Hrun)
    as (hop & hop' & r & _ & _ & Hleaf & _ & Hwalk).
  simpl in Hleaf. rewrite resolve_unfold in Hleaf.
  rewrite bool_decide_eq_false_2 in Hleaf
    by (intros E; rewrite E, lookup_empty in Hentry; done).
  rewrite Hentry in Hleaf. simpl in Hleaf. unfold set in Hleaf.
  rewrite Hnn in Hleaf. injection Hleaf as <- _.
  apply Hwalk. by intros l o _.
Qed.

(** ** The later of two operations *)

(** C9. Two operations recorded in a row under the same pointer leave the
    session exactly as the second one alone would: the slot of the pointer
    holds the second entry, no other slot is touched, and [apply()] is the
    computation that it is when the first has never been recorded.  In its
    result, a selected leaf marked with that pointer holds the second
    operation applied, with the second payload, to the old value of the
    leaf: after [set(a)] then [set(b)] it holds [b]. *)
Theorem last_write_wins callback s op1 v1 op2 v2 :
  is_pointer (targetPointer s) →
  let s2 := operationFactory op2 v2 (operationFactory op1 v1 s) in
  s2 = operationFactory op2 v2 s
  ∧ toUpdate s2 !! slot (targetPointer s) = Some (Updater v2 op2)
  ∧ (∀ k, k ≠ slot (targetPointer s) → toUpdate s2 !! k = toUpdate s !! k)
  ∧ apply callback s2 = apply callback (operationFactory op2 v2 s)
  ∧ (∀ h res h' path tag y,
       pure_callbacks callback →
       heap_ok h →
       no_proto_key h →
       val_ok (List.length h) (_originalObject s) →
       valid_selector (selector_ s) →
       selects h (selector_ s) (_originalObject s) path tag y →
       slot (marker_id tag) = slot (targetPointer s) →
       apply callback s2 h = (Ret res, h') →
       (∃ hop hop' r,
          extends h hop
          ∧ operationalMapper callback op2 y v2 hop = (Ret r, hop')
          ∧ preserved (λ l, l < List.length h ∨ List.length hop ≤ l) hop' h'
          ∧ walk h' res path = Some r)
       ∧ (op2 = OpSet → nullish v2 = false → walk h' res path = Some v2)).
Proof.
  intros Hp s2.
  assert (s2 = operationFactory op2 v2 s) as Heq.
  { unfold s2. rewrite !operationFactory_unfold. simpl.
    rewrite !toUpdateCoro_pointer by done. by rewrite insert_insert_eq. }
  assert (toUpdate s2 = <[slot (targetPointer s) := Updater v2 op2]> (toUpdate s))
    as Hled.
  { rewrite Heq, operationFactory_unfold. simpl. by rewrite toUpdateCoro_pointer. }
  split; [done|]. split; [by rewrite Hled, lookup_insert_eq|].
  split; [intros k Hk; by rewrite Hled, lookup_insert_ne|].
  split; [by rewrite Heq|].
  intros h res h' path tag y Hpure Hok _ Hv Hvalid Hsel Hslot Hrun.
  assert (selector_ s2 = selector_ s ∧ _originalObject s2 = _originalObject s)
    as [Esel Eorig] by (by rewrite Heq, operationFactory_unfold).
  unfold apply in Hrun. rewrite Esel, Eorig in Hrun.
  destruct (selectTransform_updates callback Hpure (toUpdate s2) h Hok _ _ _ _ _
              Hsel Hvalid Hv h res h' (extends_refl h) Hrun)
    as (hop & hop' & r & Hhop & _ & Hleaf & Hkeep & Hwalk).
  simpl in Hleaf. rewrite resolve_unfold, Hled in Hleaf.
  rewrite bool_decide_eq_false_2 in Hleaf by apply insert_non_empty.
  rewrite Hslot, lookup_insert_eq in Hleaf. simpl in Hleaf.
  assert (walk h' res path = Some r) as Hres by (apply Hwalk; by intros l o _).
  split.
  - exists hop, hop', r. by repeat split.
  - intros -> Hnn. simpl in Hleaf. unfold set in Hleaf. rewrite Hnn in Hleaf.
    by injection Hleaf as <- _.
Qed.

Lemma person_selects :
  selects person_heap person_selector person_object
    ["person"; "address"; "permanent"] "" (VStr "Nepal").
Proof.
  apply (selects_mapping _ _ _ "person"
           (Mapping [("address", Mapping [("permanent", Marker "")])]) (VRef 1));
    [|apply list_elem_of_here|reflexivity|].
  { intros k Hk. simpl in Hk. apply list_elem_of_singleton in Hk. by subst. }
  apply (selects_mapping _ _ _ "address" (Mapping [("permanent", Marker "")]) (VRef 0));
    [|apply list_elem_of_here|reflexivity|].
  { intros k Hk. simpl in Hk. apply list_elem_of_singleton in Hk. by subst. }
  apply (selects_mapping _ _ _ "permanent" (Marker "") (VStr "Nepal"));
    [|apply list_elem_of_here|reflexivity|].
  { intros k Hk. simpl in Hk. apply list_elem_of_singleton in Hk. by subst. }
  apply selects_marker.
Qed.

Lemma person_selector_valid : valid_selector person_selector.
Proof.
  unfold person_selector.
  repeat first [ apply valid_marker | apply valid_mapping | apply NoDup_singleton
               | apply Forall_cons_2 | apply Forall_nil_2 ].
Qed.

(** [set('a')] then [set('b')] under ['#'] on the object of the
    documentation: [apply()] returns an object whose
    [person.address.permanent] is ['b']. *)
Lemma last_write_wins_witness :
  let s := Session person_object person_selector ∅ "#" in
  ∃ res h',
    apply demo_callback
      (operationFactory OpSet (VStr "b") (operationFactory OpSet (VStr "a") s))
      person_heap = (Ret res, h')
    ∧ walk h' res ["person"; "address"; "permanent"] = Some (VStr "b").
Proof.
  intros s. eexists _, _. split; [vm_compute; reflexivity|].
  destruct (last_write_wins demo_callback s OpSet (VStr "a") OpSet (VStr "b"))
    as (_ & _ & _ & _ & H); [reflexivity|].
  eapply (H person_heap _ _ ["person"; "address"; "permanent"] "" (VStr "Nepal")).
  - exact demo_callback_pure.
  - exact person_heap_ok.
  - by apply (bool_decide_unpack _).
  - simpl. lia.
  - exact person_selector_valid.
  - exact person_selects.
  - reflexivity.
  - vm_compute. reflexivity.
  - reflexivity.
  - reflexivity.
Defined.

Ltac solve_keys :=
  let H := fresh in
  intros ? H; simpl in H;
  repeat (apply elem_of_cons in H as [->|H]; [reflexivity|]);
  by apply elem_of_nil in H.

Lemma ab_wide_selector_valid : valid_selector ab_wide_selector.
Proof.
  unfold ab_wide_selector.
  repeat first [ apply valid_marker | apply valid_mapping | apply NoDup_singleton
               | apply Forall_cons_2 | apply Forall_nil_2 ].
  by apply (bool_decide_unpack _).
Qed.

Lemma ab_wide_selects :
  selects ab_heap ab_wide_selector ab_object ["a"; "x"] "" (VNum 1).
Proof.
  apply (selects_mapping _ _ _ "a" (Mapping [("x", Marker "")]) (VRef 0));
    [solve_keys | apply list_elem_of_here | reflexivity |].
  apply (selects_mapping _ _ _ "x" (Marker "") (VNum 1));
    [solve_keys | apply list_elem_of_here | reflexivity |].
  apply selects_marker.
Qed.

(** In [{a: {x: 1}, b: {y: 2}}] under [{a: {x: '#'}, b: {z: '#'}}] with
    [.set(9)], the branch of [b] aborts and [a.x] is the result of the leaf
    step on [1]. *)
Lemma selected_leaf_result_witness :
  ∃ res h',
    apply demo_callback ab_wide_session ab_heap = (Ret res, h')
    ∧ ∃ hop hop' r,
        extends ab_heap hop
        ∧ selectTransform demo_callback (toUpdate ab_wide_session) (Marker "")
            (VNum 1) hop = (Ret r, hop')
        ∧ preserved (λ l, l < List.length ab_heap ∨ List.length hop ≤ l) hop' h'
        ∧ walk h' res ["a"; "x"] = Some r.
Proof.
  eexists _, _. split; [vm_compute; reflexivity|].
  apply (selected_leaf_result demo_callback ab_wide_session ab_heap (VRef 3) _
           ["a"; "x"] "" (VNum 1)).
  - exact demo_callback_pure.
  - exact ab_heap_ok.
  - exact ab_heap_no_proto_key.
  - simpl. lia.
  - exact ab_wide_selector_valid.
  - exact ab_wide_selects.
  - vm_compute. reflexivity.
Defined.

Lemma set_then_read_witness :
  ∃ res h',
    apply demo_callback ab_wide_session ab_heap = (Ret res, h')
    ∧ walk h' res ["a"; "x"] = Some (VNum 9)
    ∧ walk h' res ["b"] = Some (VRef 1).
Proof.
  eexists _, _. split; [vm_compute; reflexivity|]. split; [|reflexivity].
  apply (set_then_read demo_callback ab_wide_session ab_heap (VRef 3) _
           ["a"; "x"] "" (VNum 1) (VNum 9)).
  - exact demo_callback_pure.
  - exact ab_heap_ok.
  - simpl. lia.
  - exact ab_wide_selector_valid.
  - exact ab_wide_selects.
  - reflexivity.
  - reflexivity.
  - vm_compute. reflexivity.
Defined.

(** ** The builder *)

(** X3. Once an operation has been recorded, [apply()] returns a value for
    every object and every selector whose leaves are all pointer markers,
    in a well-formed store whose objects have no own property [__proto__]
    and given pipe functions that are pure and return: a missing path, a
    payload of the wrong type or a pointer without an entry never makes it
    raise. *)
Theorem apply_returns callback s h :
  pure_callbacks callback →
  total_callbacks callback →
  heap_ok h →
  no_proto_key h →
  val_ok (List.length h) (_originalObject s) →
  regular_selector (selector_ s) →
  toUpdate s ≠ ∅ →
  ∃ res h', apply callback s h = (Ret res, h').
Proof.
  intros Hpure Htotal Hok Hplain Horig Hreg Hled. unfold apply.
  apply (selectTransform_returns callback Hpure (toUpdate s) h Hok Hplain Htotal Hled
           _ Hreg _ _ (extends_refl h) Horig).
Qed.

Lemma ab_wide_selector_regular : regular_selector ab_wide_selector.
Proof.
  unfold ab_wide_selector.
  apply regular_mapping;
    [by apply (bool_decide_unpack _) | by apply (bool_decide_unpack _) |].
  repeat first [ apply Forall_cons_2 | apply Forall_nil_2 ]; simpl;
    (apply regular_mapping;
      [by apply (bool_decide_unpack _) | by apply (bool_decide_unpack _) |];
     apply Forall_cons_2; [apply regular_marker|apply Forall_nil_2]).
Qed.

Lemma apply_returns_witness :
  ∃ res h', apply demo_callback ab_wide_session ab_heap = (Ret res, h').
Proof.
  apply (apply_returns demo_callback ab_wide_session ab_heap).
  - exact demo_callback_pure.
  - exact demo_callback_total.
  - exact ab_heap_ok.
  - exact ab_heap_no_proto_key.
  - simpl. lia.
  - exact ab_wide_selector_regular.
  - apply insert_non_empty.
Defined.

(** X4. Every call of an operation method records an entry, also with an
    undefined or null payload (the guard of the method is always true); so
    after any such call [apply()] cannot raise 'operation required'. *)
Theorem any_operation_disarms callback object sel s op v h :
  built object sel s →
  toUpdate (operationFactory op v s) !! slot (targetPointer s) = Some (Updater v op)
  ∧ (apply callback (operationFactory op v s) h).1 ≠ Throw OperationRequired.
Proof.
  intros Hbuilt. pose proof (built_pointer _ _ _ Hbuilt) as Hp.
  rewrite operationFactory_unfold. unfold apply. simpl.
  rewrite (toUpdateCoro_pointer _ _ _ Hp). split; [by rewrite lookup_insert_eq|].
  apply selectTransform_not_required, insert_non_empty.
Qed.

(** [set(undefined)] alone on the object of the documentation: the leaf
    step is a no-op and nothing is raised. *)
Lemma any_operation_disarms_witness :
  (apply demo_callback
     (operationFactory OpSet VUndef (Session person_object person_selector ∅ "#"))
     person_heap).1 ≠ Throw OperationRequired.
Proof.
  apply (any_operation_disarms demo_callback person_object person_selector
           (Session person_object person_selector ∅ "#") OpSet VUndef person_heap).
  apply built_new.
Defined.

(** X5. The keys of the pending updates of a session are ["default"] and
    pointer ids longer than ["#"]; the string ["#"] itself is never a key. *)
Theorem ledger_keys_are_slots object sel s k :
  built object sel s →
  is_Some (toUpdate s !! k) →
  k = "default" ∨ (is_pointer k ∧ k ≠ "#").
Proof.
  intros Hbuilt. revert k.
  induction Hbuilt as [|target s Hbuilt IH|op v s Hbuilt IH]; intros k.
  - simpl. rewrite lookup_empty. by intros [? ?].
  - assert (toUpdate (of_ target s) = toUpdate s) as ->; [|apply IH].
    unfold of_. destruct (negb (truthy target)); [done|].
    destruct target; try done. by destruct (startsWith s0 "#" && _).
  - pose proof (built_pointer _ _ _ Hbuilt) as Hp.
    rewrite operationFactory_unfold. simpl. rewrite (toUpdateCoro_pointer _ _ _ Hp).
    destruct (decide (k = slot (targetPointer s))) as [->|Hne].
    + intros _. unfold slot. destruct (decide (targetPointer s = "#")); [by left|].
      by right.
    + rewrite lookup_insert_ne by done. apply IH.
Qed.

Lemma ledger_keys_are_slots_witness :
  "default" = "default" ∨ (is_pointer "default" ∧ "default" ≠ "#").
Proof.
  apply (ledger_keys_are_slots person_object person_selector person_session "default").
  - apply built_operation, built_new.
  - eexists. reflexivity.
Defined.

(** X6. [of] changes the current pointer only for a string that starts
    with '#' and is longer than one character, and leaves everything else
    of the session as it is; in particular [of('#')] does nothing, so a
    session whose pointer has left ["#"] never comes back to it. *)
Theorem of_only_names_pointers target s :
  (of_ target s = s
   ∨ ∃ t, target = VStr t ∧ is_pointer t ∧ t ≠ "#"
          ∧ of_ target s = Session (_originalObject s) (selector_ s) (toUpdate s) t)
  ∧ of_ (VStr "#") s = s
  ∧ (targetPointer s ≠ "#" → targetPointer (of_ target s) ≠ "#").
Proof.
  assert (of_ target s = s
          ∨ ∃ t, target = VStr t ∧ is_pointer t ∧ t ≠ "#"
                 ∧ of_ target s
                   = Session (_originalObject s) (selector_ s) (toUpdate s) t) as H.
  { unfold of_. destruct (negb (truthy target)); [by left|].
    destruct target as [| | | |t| |]; try by left.
    destruct (startsWith t "#") eqn:Et; [|by left].
    destruct (1 <? String.length t) eqn:El; [|by left].
    right. exists t. split; [done|]. split; [done|]. split; [|done].
    intros ->. done. }
  split; [done|]. split; [done|].
  intros Hs. destruct H as [->|(t & _ & _ & Ht & ->)]; done.
Qed.

(** X7. Entries recorded under two different pointers do not depend on the
    order of recording: the pending updates, and so every traversal, are
    the same. *)
Theorem recording_commutes callback u v p q led sel orig h :
  is_pointer p →
  is_pointer q →
  p ≠ q →
  toUpdateCoro u p (toUpdateCoro v q led) = toUpdateCoro v q (toUpdateCoro u p led)
  ∧ selectTransform callback (toUpdateCoro u p (toUpdateCoro v q led)) sel orig h
    = selectTransform callback (toUpdateCoro v q (toUpdateCoro u p led)) sel orig h.
Proof.
  intros Hp Hq Hne.
  assert (toUpdateCoro u p (toUpdateCoro v q led)
          = toUpdateCoro v q (toUpdateCoro u p led)) as E.
  { rewrite !toUpdateCoro_pointer by done. apply insert_insert_ne.
    intros Hs. apply Hne. by apply slot_inj. }
  split; [done|]. by rewrite E.
Qed.

Lemma recording_commutes_witness :
  toUpdateCoro (Updater (VNum 1) OpSet) "#" (toUpdateCoro (Updater VNull OpMerge) "#/a" ∅)
  = toUpdateCoro (Updater VNull OpMerge) "#/a" (toUpdateCoro (Updater (VNum 1) OpSet) "#" ∅).
Proof.
  apply (recording_commutes demo_callback (Updater (VNum 1) OpSet)
           (Updater VNull OpMerge) "#" "#/a" ∅ (Marker "") VNull []);
    [reflexivity | reflexivity | done].
Defined.

(** ** The operations on arrays and objects *)

Lemma filter_index_all n es : filter_index (λ _, true) n es = es.
Proof. revert n. induction es as [|e es IH]; intros n; simpl; [done|]. by rewrite IH. Qed.

Lemma filter_index_ext f g n es :
  (∀ i, f i = g i) → filter_index f n es = filter_index g n es.
Proof.
  intros Hfg. revert n. induction es as [|e es IH]; intros n; simpl; [done|].
  by rewrite Hfg, IH.
Qed.

Lemma filter_index_delete z es n :
  filter_index (λ index, negb (bool_decide (VNum z = VNum (Z.of_nat index)))) n es
  = if (Z.of_nat n <=? z)%Z then delete (Z.to_nat z - n) es else es.
Proof.
  revert n. induction es as [|e es IH]; intros n; simpl.
  - by destruct (Z.of_nat n <=? z)%Z.
  - rewrite IH. destruct (decide (z = Z.of_nat n)) as [->|Hne].
    + rewrite bool_decide_eq_true_2 by done. simpl.
      rewrite (proj2 (Z.leb_gt _ _)) by lia.
      rewrite (proj2 (Z.leb_le _ _)) by lia.
      by replace (Z.to_nat (Z.of_nat n) - n) with 0 by lia.
    + rewrite bool_decide_eq_false_2 by congruence. simpl.
      destruct (Z.leb_spec (Z.of_nat n) z) as [Hle|Hlt].
      * rewrite (proj2 (Z.leb_le _ _)) by lia.
        by replace (Z.to_nat z - n) with (S (Z.to_nat z - S n)) by lia.
      * by rewrite (proj2 (Z.leb_gt _ _)) by lia.
Qed.

(** X8. [delete] on an array always returns a new array: without the
    element at the position [key] when [key] is a number that is a position
    of the array, and otherwise (a string such as ['1'], a negative or too
    large number) a copy with all the elements. *)
Theorem delete_array_element h l es key :
  h !! l = Some (OArr es) →
  nullish key = false →
  deleteOp (VRef l) key h
  = (Ret (VRef (List.length h)),
     h ++ [OArr (match key with
                 | VNum z => if (0 <=? z)%Z then delete (Z.to_nat z) es else es
                 | _ => es
                 end)]).
Proof.
  intros Hl Hkey. run_op. unfold elems_of, isArray. cbv beta.
  rewrite Hkey, !Hl. cbv beta iota. do 4 f_equal.
  destruct key as [| | |z| | |]; try done;
    try (by rewrite (filter_index_ext _ (λ _, true)), filter_index_all).
  rewrite filter_index_delete. simpl. by rewrite Nat.sub_0_r.
Qed.

(** [[1, 2]] without the element at 0, at the new address 1. *)
Lemma delete_array_element_witness :
  deleteOp (VRef 0) (VNum 0) list_heap
  = (Ret (VRef 1), list_heap ++ [OArr [VNum 2]]).
Proof.
  apply (delete_array_element list_heap 0 [VNum 1; VNum 2] (VNum 0));
    reflexivity.
Defined.

Lemma replace_prop_keys k v (ps : props) : (replace_prop k v ps).*1 = ps.*1.
Proof.
  induction ps as [|[k0 v0] ps IH]; csimpl; [done|].
  destruct (decide (k = k0)) as [->|]; csimpl; [done|]. by rewrite IH.
Qed.

Lemma insert_index_keys n k v (ps : props) : (insert_index n k v ps).*1 ≡ₚ k :: ps.*1.
Proof.
  induction ps as [|[k0 v0] ps IH]; csimpl; [done|].
  destruct (array_index k0) as [m|]; [destruct (m <? n)%N|]; csimpl; try done.
  rewrite IH. apply Permutation_swap.
Qed.

Lemma define_prop_NoDup k v (ps : props) : NoDup ps.*1 → NoDup (define_prop k v ps).*1.
Proof.
  intros Hnd. unfold define_prop. destruct (assoc k ps) as [w|] eqn:E.
  - by rewrite replace_prop_keys.
  - apply assoc_None in E.
    destruct (array_index k).
    + rewrite insert_index_keys. by apply NoDup_cons.
    + rewrite fmap_app. simpl. apply NoDup_app. split; [done|].
      split; [|apply NoDup_singleton].
      intros x Hx ->%list_elem_of_singleton. done.
Qed.

Lemma assign_props_NoDup (target source : props) :
  NoDup target.*1 → NoDup (assign_props target source).*1.
Proof.
  unfold assign_props. revert target.
  induction source as [|[k v] src IH]; intros target Hnd; simpl; [done|].
  by apply IH, define_prop_NoDup.
Qed.

Lemma assoc_spread k (acc : props) : NoDup acc.*1 → assoc k (assign_props [] acc) = assoc k acc.
Proof.
  intros Hnd. rewrite assoc_assign_props by done. by destruct (assoc k acc).
Qed.

Lemma assoc_get_elem k (ps : props) : k ∈ ps.*1 → assoc k ps = Some (get ps k).
Proof.
  intros Hk. unfold get. destruct (assoc k ps) eqn:E; [done|].
  by apply assoc_None in E.
Qed.

(** The [reduce] of [deleteOp] over the keys [ks] of the object [ps]. *)
Lemma delete_fold key (ps : props) ks :
  ∀ acc, NoDup acc.*1 →
    let out := fold_left
                 (λ acc k, if bool_decide (VStr k = key)
                           then assign_props [] acc
                           else define_prop k (get ps k) (assign_props [] acc))
                 ks acc in
    NoDup out.*1
    ∧ ∀ k, assoc k out
           = if decide (k ∈ ks)
             then (if bool_decide (VStr k = key) then assoc k acc else Some (get ps k))
             else assoc k acc.
Proof.
  induction ks as [|k0 ks IH]; intros acc Hnd; cbn [fold_left].
  - split; [done|]. intros k.
    by destruct (decide (k ∈ [])) as [?%elem_of_nil|].
  - set (acc' := if bool_decide (VStr k0 = key) then assign_props [] acc
                 else define_prop k0 (get ps k0) (assign_props [] acc)).
    assert (NoDup acc'.*1) as Hnd'.
    { unfold acc'. destruct (bool_decide (VStr k0 = key));
        [|apply define_prop_NoDup]; apply assign_props_NoDup, NoDup_nil_2. }
    destruct (IH acc' Hnd') as [Hout Hlook]. split; [done|].
    intros k. rewrite Hlook.
    assert (assoc k acc'
            = if bool_decide (VStr k0 = key) then assoc k acc
              else if decide (k = k0) then Some (get ps k0) else assoc k acc) as ->.
    { unfold acc'. destruct (bool_decide (VStr k0 = key)).
      - by apply assoc_spread.
      - rewrite assoc_define_prop. destruct (decide (k = k0)); [done|].
        by apply assoc_spread. }
    destruct (decide (k = k0)) as [->|Hne].
    + destruct (decide (k0 ∈ k0 :: ks)) as [_|Hin'];
        [|exfalso; apply Hin', list_elem_of_here].
      destruct (decide (k0 ∈ ks)); by destruct (bool_decide (VStr k0 = key)).
    + destruct (decide (k ∈ ks)) as [Hin|Hin].
      * destruct (decide (k ∈ k0 :: ks)) as [_|Hin'];
          [|exfalso; by apply Hin', list_elem_of_further].
        destruct (bool_decide (VStr k = key)) eqn:Ek; [|done].
        apply bool_decide_eq_true in Ek.
        rewrite bool_decide_eq_false_2; [done|]. intros E. congruence.
      * destruct (decide (k ∈ k0 :: ks)) as [[?|?]%elem_of_cons|_]; try done.
        by destruct (bool_decide (VStr k0 = key)).
Qed.

(** X9. [delete] on a plain object always returns a new object, with
    distinct keys, that has every property of the old one except the one
    named by [key]; when [key] is not a string or names no property, it is a
    copy of the old object, not the old object itself. *)
Theorem delete_object_key h l ps key :
  h !! l = Some (OObj ps) →
  nullish key = false →
  ∃ ps',
    deleteOp (VRef l) key h = (Ret (VRef (List.length h)), h ++ [OObj ps'])
    ∧ h !! List.length h = None
    ∧ NoDup ps'.*1
    ∧ ∀ k, assoc k ps' = if bool_decide (VStr k = key) then None else assoc k ps.
Proof.
  intros Hl Hkey. run_op. unfold isArray, own_props. cbv beta.
  rewrite Hkey, !Hl. simpl. rewrite !Hl.
  eexists. split; [reflexivity|]. split; [by apply lookup_ge_None|].
  destruct (delete_fold key ps ps.*1 [] (NoDup_nil_2)) as [Hnd Hlook].
  split; [done|]. intros k. rewrite Hlook. simpl.
  destruct (decide (k ∈ ps.*1)) as [Hin|Hin].
  - rewrite (assoc_get_elem _ _ Hin). by destruct (bool_decide (VStr k = key)).
  - apply assoc_None in Hin. rewrite Hin. by destruct (bool_decide (VStr k = key)).
Qed.

(** [delete('address')] on the person of the documentation. *)
Lemma delete_object_key_witness :
  ∃ ps',
    deleteOp (VRef 1) (VStr "address") person_heap
    = (Ret (VRef 3), person_heap ++ [OObj ps'])
    ∧ assoc "address" ps' = None
    ∧ assoc "name" ps' = Some (VStr "John Cena").
Proof.
  destruct (delete_object_key person_heap 1
              [("name", VStr "John Cena"); ("address", VRef 0)] (VStr "address")
              eq_refl eq_refl) as (ps' & Hrun & _ & _ & Hlook).
  exists ps'. split; [exact Hrun|]. split; [apply (Hlook "address")|apply (Hlook "name")].
Defined.

(** X10. [append] on an array returns a new array with the value added as
    one element, unless the value is itself an array: then its elements are
    added instead, exactly as [extend] does for a non-empty array; for an
    empty array value [append] still returns a new copy, where [extend]
    returns the old array itself. *)
Theorem append_array h l es v :
  h !! l = Some (OArr es) →
  nullish v = false →
  (isArray h v = false →
   append (VRef l) v h = (Ret (VRef (List.length h)), h ++ [OArr (es ++ [v])]))
  ∧ (∀ l' ys, v = VRef l' → h !! l' = Some (OArr ys) →
       append (VRef l) v h = (Ret (VRef (List.length h)), h ++ [OArr (es ++ ys)])
       ∧ (ys ≠ [] → extend (VRef l) v h = append (VRef l) v h)
       ∧ (ys = [] → extend (VRef l) v h = (Ret (VRef l), h))).
Proof.
  intros Hl Hv. split.
  - intros Hna. run_op. unfold elems_of, isArray in *. cbv beta.
    rewrite Hv, !Hl. cbv beta iota. simpl. rewrite !Hl.
    destruct v as [| | | | | |l']; try done.
    by destruct (h !! l') as [[ps|ys]|].
  - intros l' ys -> Hl'.
    assert (append (VRef l) (VRef l') h
            = (Ret (VRef (List.length h)), h ++ [OArr (es ++ ys)])) as Happ.
    { run_op. unfold elems_of, isArray. cbv beta. rewrite !Hl. simpl.
      by rewrite !Hl, Hl'. }
    split; [done|]. rewrite Happ.
    split; intros Hys; run_op; unfold elems_of, isArray; cbv beta;
      rewrite !Hl, !Hl'; simpl; rewrite ?Hl, ?Hl'.
    + destruct ys; [done|]. simpl. by rewrite !Hl, ?Hl'.
    + by subst ys.
Qed.

(** [append([1, 2], 'x')] is [[1, 2, 'x']], at the new address 1. *)
Lemma append_array_witness :
  append (VRef 0) (VStr "x") list_heap
  = (Ret (VRef 1), list_heap ++ [OArr [VNum 1; VNum 2; VStr "x"]]).
Proof.
  apply (append_array list_heap 0 [VNum 1; VNum 2] (VStr "x")); reflexivity.
Defined.

(** X11. In a store whose objects have no own property [__proto__],
    [merge] with a payload that has at least one key returns a new plain
    object, [Object.assign({}, old, payload)]: each key of the payload
    holds the value of the payload, every other key of the old value keeps
    its value, and no key is there twice.  Neither operand is changed. *)
Theorem merge_object_payload h old l :
  heap_ok h →
  no_proto_key h →
  own_props h (VRef l) ≠ [] →
  let merged := assign_props (assign_props [] (own_props h old)) (own_props h (VRef l)) in
  merge old (VRef l) h = (Ret (VRef (List.length h)), h ++ [OObj merged])
  ∧ h !! List.length h = None
  ∧ NoDup merged.*1
  ∧ ∀ k, assoc k merged
         = match child h (VRef l) k with
           | Some v => Some v
           | None => child h old k
           end.
Proof.
  intros Hok _ Hkeys merged. split; [|split; [|split]].
  - run_op. cbn -[own_props assign_props].
    rewrite !(bool_decide_eq_true_2 (TyObject = TyObject)) by done.
    cbn -[own_props assign_props]. rewrite length_fmap.
    destruct (own_props h (VRef l)) eqn:E; [done|].
    cbn -[own_props assign_props]. unfold merged. by rewrite E.
  - by apply lookup_ge_None.
  - unfold merged. apply assign_props_NoDup, assign_props_NoDup, NoDup_nil_2.
  - intros k. unfold merged.
    rewrite assoc_assign_props by by apply own_props_NoDup.
    unfold child. destruct (assoc k (own_props h (VRef l))); [done|].
    by apply assoc_clone.
Qed.

(** [merge(address, person)] on the store of the documentation: the keys
    of the person are added to those of the address. *)
Lemma merge_object_payload_witness :
  merge (VRef 0) (VRef 1) person_heap
  = (Ret (VRef 3),
     person_heap ++ [OObj [("permanent", VStr "Nepal"); ("temporary", VStr "China");
                           ("name", VStr "John Cena"); ("address", VRef 0)]]).
Proof.
  apply (merge_object_payload person_heap (VRef 0) 1);
    [exact person_heap_ok | by apply (bool_decide_unpack _) | done].
Defined.

(** ** Objects without properties *)

(** X12. On an original that has no own property (null, undefined, a
    number, a boolean, a function, [{}] or [[]]) a session whose selector
    has, as its first key, a name that [Object.prototype] does not have
    returns the original itself: the first key finds no child, so nothing
    is looked up in the pending updates and nothing is raised, even when no
    operation has been recorded.  [reduce] accepts every such selector. *)
Theorem apply_on_empty_original callback s key sub rest h :
  selector_ s = Mapping ((key, sub) :: rest) →
  key ≠ "__proto__" →
  member key Object_prototype = None →
  own_props h (_originalObject s) = [] →
  (∃ mk, reduce (selector_ s) = Ret mk)
  ∧ apply callback s h = (Ret (_originalObject s), h ++ [OObj []]).
Proof.
  intros Hsel Hkey Hmember Hempty. unfold apply. rewrite Hsel. split; [simpl; eauto|].
  rewrite selectTransform_Mapping, Hempty. cbn [assoc].
  rewrite (traverse_cons _ _ _ _ _ _ [] _ (lookup_new_cell _ _) Hkey).
  rewrite (reads_inherited [] key eq_refl), Hmember. done.
Qed.

(** [reduce({person: ...})(null).apply()] returns [null]. *)
Lemma apply_on_empty_original_witness :
  apply demo_callback (Session VNull person_selector ∅ "#") person_heap
  = (Ret VNull, person_heap ++ [OObj []]).
Proof.
  apply (apply_on_empty_original demo_callback
           (Session VNull person_selector ∅ "#") "person"
           (Mapping [("address", Mapping [("permanent", Marker "")])]) []
           person_heap); [reflexivity | done | reflexivity | reflexivity].
Defined.

(** ** Selector keys and leaves that the loop does not expect *)

Lemma insert_new_cell (h : heap) o o' : <[List.length h := o']> (h ++ [o]) = h ++ [o'].
Proof. rewrite insert_app_r_alt by lia. by rewrite Nat.sub_diag. Qed.

Lemma member_not_proto key f : member key Object_prototype = Some f → key ≠ "__proto__".
Proof. by intros H ->. Qed.

(** X13. A selector key that names a member of [Object.prototype] finds
    that member in a node that has no such property of its own, so the
    branch is not aborted: the leaf step runs on the inherited function.
    With [set(v)] recorded under ['#'] the result is a clone of the node
    with [v] added under that key. *)
Theorem inherited_member_followed callback led key f orig v h :
  heap_ok h →
  no_proto_key h →
  val_ok (List.length h) orig →
  member key Object_prototype = Some f →
  child h orig key = None →
  led !! "default" = Some (Updater v OpSet) →
  nullish v = false →
  let cloned := assign_props [] (own_props h orig) in
  selectTransform callback led (Mapping [(key, Marker "")]) orig h
  = (Ret (VRef (List.length h)), h ++ [OObj (define_prop key v cloned)])
  ∧ assoc key (define_prop key v cloned) = Some v
  ∧ ∀ k, k ≠ key → assoc k (define_prop key v cloned) = child h orig k.
Proof.
  intros Hok Hplain Horig Hmember Hchild Hentry Hnn cloned.
  pose proof (member_not_proto _ _ Hmember) as Hkey.
  assert (led ≠ ∅) as Hled by (intros E; by rewrite E, lookup_empty in Hentry).
  split; [|split].
  - rewrite selectTransform_Mapping.
    rewrite (own_props_plain h h orig Hplain (extends_refl h) Horig).
    rewrite (traverse_cons _ _ _ _ _ _ _ _ (lookup_new_cell _ _) Hkey).
    fold cloned.
    assert (reads cloned key = VFun f) as ->.
    { rewrite reads_inherited, Hmember; [done|].
      unfold cloned. by rewrite assoc_clone. }
    cbn [nullish selectTransform]. rewrite resolve_unfold.
    rewrite bool_decide_eq_false_2 by done.
    change (slot (marker_id "")) with "default". rewrite Hentry.
    cbn [operation value operationalMapper]. unfold set. rewrite Hnn. unfold ret.
    rewrite (put_ok _ _ _ _ _ (lookup_new_cell _ _) Hkey).
    by rewrite insert_new_cell.
  - rewrite assoc_define_prop. by rewrite decide_True.
  - intros k Hk. rewrite assoc_define_prop, decide_False by done.
    unfold cloned. by apply assoc_clone.
Qed.

(** Selector [{toString: '#'}] on [{a: 1}] with [.set(9)]: the result is
    [{a: 1, toString: 9}]. *)
Lemma inherited_member_followed_witness :
  selectTransform demo_callback (toUpdate ab_session)
    (Mapping [("toString", Marker "")]) (VRef 0) [OObj [("a", VNum 1)]]
  = (Ret (VRef 1),
     [OObj [("a", VNum 1)]; OObj [("a", VNum 1); ("toString", VNum 9)]]).
Proof.
  apply (inherited_member_followed demo_callback (toUpdate ab_session) "toString" 9
           (VRef 0) (VNum 9) [OObj [("a", VNum 1)]]).
  - by apply (bool_decide_unpack _).
  - by apply (bool_decide_unpack _).
  - simpl. lia.
  - reflexivity.
  - reflexivity.
  - reflexivity.
  - reflexivity.
Defined.

(** X14. [reduce] accepts a mapping with a leaf that is [null] or
    [undefined]; when the key of that leaf comes first and reads as a value
    in the node, [apply()] raises a TypeError, whatever has been
    recorded. *)
Theorem nullish_leaf_raises callback led key rest orig h :
  heap_ok h →
  no_proto_key h →
  val_ok (List.length h) orig →
  key ≠ "__proto__" →
  nullish (reads (own_props h orig) key) = false →
  (∃ mk, reduce (Mapping ((key, Nullish) :: rest)) = Ret mk)
  ∧ (selectTransform callback led (Mapping ((key, Nullish) :: rest)) orig h).1
    = Throw TypeError.
Proof.
  intros Hok Hplain Horig Hkey Hnn. split; [simpl; eauto|].
  rewrite selectTransform_Mapping.
  rewrite (own_props_plain h h orig Hplain (extends_refl h) Horig).
  rewrite (traverse_cons _ _ _ _ _ _ _ _ (lookup_new_cell _ _) Hkey).
  rewrite reads_clone, Hnn by done.
  cbn [selectTransform]. unfold bind, clone.
  rewrite (own_props_plain h _ _ Hplain (extends_app h _) (reads_child_ok _ _ _ Hok)).
  done.
Qed.

(** [reduce({a: null})({a: 1}).set(9).apply()] *)
Lemma nullish_leaf_raises_witness :
  (selectTransform demo_callback (toUpdate ab_session) (Mapping [("a", Nullish)])
     (VRef 0) [OObj [("a", VNum 1)]]).1 = Throw TypeError.
Proof.
  apply (nullish_leaf_raises demo_callback (toUpdate ab_session) "a" [] (VRef 0)
           [OObj [("a", VNum 1)]]).
  - by apply (bool_decide_unpack _).
  - by apply (bool_decide_unpack _).
  - simpl. lia.
  - done.
  - reflexivity.
Defined.

(** X15. A leaf that is a number, a boolean or a function has no key to
    visit and is not a marker: the child under its key is replaced by a
    new plain object with the properties of the child, nothing is looked
    up in the pending updates, and nothing is raised even when no operation
    has been recorded. *)
Theorem atom_leaf_copies callback led key orig x h :
  heap_ok h →
  no_proto_key h →
  val_ok (List.length h) orig →
  key ≠ "__proto__" →
  child h orig key = Some x →
  nullish x = false →
  selectTransform callback led (Mapping [(key, Atom)]) orig h
  = (Ret (VRef (List.length h)),
     h ++ [OObj (define_prop key (VRef (S (List.length h)))
                   (assign_props [] (own_props h orig)));
           OObj (assign_props [] (own_props h x))]).
Proof.
  intros Hok Hplain Horig Hkey Hx Hnn.
  rewrite selectTransform_Mapping.
  rewrite (own_props_plain h h orig Hplain (extends_refl h) Horig).
  rewrite (traverse_cons _ _ _ _ _ _ _ _ (lookup_new_cell _ _) Hkey).
  assert (reads (assign_props [] (own_props h orig)) key = x) as ->.
  { apply reads_own. by rewrite assoc_clone. }
  rewrite Hnn. cbn [selectTransform]. unfold clone.
  rewrite (own_props_plain h _ x Hplain (extends_app h _) (child_ok _ _ _ _ Hok Hx)).
  unfold Object_assign_new, new.
  cbn [fold_left].
  rewrite (extends_own_props h (h ++ [_]) x (extends_app _ _) (child_ok _ _ _ _ Hok Hx)).
  rewrite length_app. cbn [List.length]. rewrite Nat.add_1_r.
  unfold put. rewrite lookup_app_l by (rewrite length_app; simpl; lia).
  rewrite lookup_new_cell, decide_False by done.
  cbn [traverse]. unfold ret. f_equal.
  rewrite insert_app_l by (rewrite length_app; simpl; lia).
  rewrite insert_new_cell. by rewrite <- app_assoc.
Qed.

(** [reduce({a: 5})({a: {x: 1}, b: {y: 2}}).apply()], with nothing
    recorded: [a] is a new object [{x: 1}]. *)
Lemma atom_leaf_copies_witness :
  selectTransform demo_callback ∅ (Mapping [("a", Atom)]) ab_object ab_heap
  = (Ret (VRef 3),
     ab_heap ++ [OObj [("a", VRef 4); ("b", VRef 1)]; OObj [("x", VNum 1)]]).
Proof.
  apply (atom_leaf_copies demo_callback ∅ "a" ab_object (VRef 0) ab_heap).
  - exact ab_heap_ok.
  - exact ab_heap_no_proto_key.
  - simpl. lia.
  - done.
  - reflexivity.
  - reflexivity.
Defined.
